(** * Outlier detection on spectra: the detection controller

    A shallow embedding of [OutlierDetectionSpec.do_detection]
    (jwst/outlier_detection/outlier_detection_spec.py) and of the
    collaborators it drives, together with the properties of the design
    document that can be stated over it.

    Python objects live in a store: datamodels and their [meta] nodes are
    allocated separately, so that [median_model.meta = drizzled_models[0].meta]
    shares one node between two models, exactly as attribute assignment does.
    Exceptions are results: a computation returns [Ok v] or [Raise e] together
    with the store as it was when the exception left the function. *)

From Stdlib Require Import QArith Qabs ZArith Lia.
From stdpp Require Import base list gmap strings.

Local Open Scope Z_scope.
Local Open Scope nat_scope.

(* [set_solver] clears hypotheses whether or not they are there. *)
Set Warnings "-clear-no-such-hyp".

(** ** Data model *)

(** A pixel value is a float: either a finite number or a non-finite one
    (NaN, infinity).  Finite values are rationals. *)
Inductive flux :=
| Finite (q : Q)
| NonFinite.

Definition Array := list (list flux).
Definition DQArray := list (list Z).
Definition Mask := list (list bool).

(** [a.shape] of a two-dimensional array: rows, then columns of the first row. *)
Definition shape {A : Type} (a : list (list A)) : nat * nat :=
  (length a, match a with [] => 0 | row :: _ => length row end).

(** [np.zeros(shape)] *)
Definition zeros {A : Type} (z : A) (shp : nat * nat) : list (list A) :=
  replicate (fst shp) (replicate (snd shp) z).

(** References into the store. *)
Abbreviation loc := nat (only parsing).

(** The [meta] node of a datamodel.  [filename] may be Python's [None]. *)
Record Meta := mkMeta {
  filename : option string;
  other : list (string * string)
}.

(** A datamodel object: its arrays and a reference to its [meta] node. *)
Record Model := mkModel {
  data : Array;
  dq : DQArray;
  wht : Array;
  meta : loc
}.

(** What a collaborator sees of a datamodel when it is handed one: the
    arrays and the contents of the meta node at the time of the call. *)
Record Image := mkImage {
  im_data : Array;
  im_dq : DQArray;
  im_wht : Array;
  im_meta : Meta
}.

(** A mosaic as the resampler hands it back: a new image, and whether the
    resampler materialised it in a file rather than keeping it in memory. *)
Record Mosaic := mkMosaic {
  mo_image : Image;
  mo_on_disk : bool
}.

(** Exceptions that can leave the controller. *)
Inductive Exn :=
| IndexError
| DanglingRef
| ConfigError
| ResampleError
| WeightError
| PathError
| CombineError
| PersistenceError
| PerExposureError
| OSError.

Inductive Result (A : Type) :=
| Ok (a : A)
| Raise (e : Exn).
Arguments Ok {A} a.
Arguments Raise {A} e.

(** Values of the keyword dictionary are dynamically typed. *)
Inductive Value :=
| VNone
| VBool (b : bool)
| VInt (z : Z)
| VFloat (q : Q)
| VStr (s : string)
| VPair (a b : Q).

(** [if v:] *)
Definition truthy (v : Value) : bool :=
  match v with
  | VNone => false
  | VBool b => b
  | VInt z => negb (Z.eqb z 0)
  | VFloat q => negb (Qeq_bool q 0)
  | VStr s => match s with EmptyString => false | _ => true end
  | VPair _ _ => true
  end.

(** [v is True] *)
Definition is_True (v : Value) : bool :=
  match v with
  | VBool true => true
  | _ => false
  end.

(** The keyword arguments of [do_detection].  The outlier-detection step
    passes its complete parameter set, so every recognised key is present;
    [make_output_path] is the path-naming callable it injects. *)
Record Kwargs := mkKwargs {
  save_intermediate_results : Value;
  resample_data : Value;
  weight_type : Value;
  good_bits : Value;
  maskpt : Value;
  in_memory : Value;
  snr : Value;
  scale : Value;
  backg : Value;
  make_output_path : option string -> string -> Result string
}.

(** Messages passed to [log.info]. *)
Inductive LogMsg :=
| WritingResampled
| WritingMedian (path : option string)
| RemovingFile (fn : loc).

(** The calls the controller makes on its collaborators, in the order it
    makes them. *)
Inductive Event :=
| EvConvertInputs
| EvDrizzle (ins outs : list loc)
| EvBuildWeight (l : loc)
| EvLog (msg : LogMsg)
| EvSave (l : loc) (path : option string)
| EvSaveFailed (l : loc) (path : option string)
| EvImageModel (l : loc) (shp : nat * nat)
| EvCreateMedianCalled (stack : list loc)
| EvCreateMedianReturned
| EvRemoveFile (fn : loc)
| EvBlot (l : loc)
| EvCompare (l : loc)
| EvReport (l : loc) (e : Exn).

(** The store and the outside world. *)
Record World := mkWorld {
  models : list Model;
  metas : list Meta;
  files : gset loc;
  trace : list Event
}.

(** ** The computation monad: state and exceptions *)

Definition M (A : Type) : Type := World -> Result A * World.

#[global] Instance M_ret : MRet M := fun A a w => (Ok a, w).

#[global] Instance M_bind : MBind M := fun A B f m w =>
  match m w with
  | (Ok a, w') => f a w'
  | (Raise e, w') => (Raise e, w')
  end.

Definition raise {A} (e : Exn) : M A := fun w => (Raise e, w).

(** The outcome of a call on a collaborator enters the computation. *)
Definition lift {A} (r : Result A) : M A := fun w => (r, w).

(** [for x in xs: body(x)] *)
Fixpoint for_each {A} (xs : list A) (body : A -> M unit) : M unit :=
  match xs with
  | [] => mret tt
  | x :: rest => body x;; for_each rest body
  end.

(** Reading a sequence of objects, one after the other. *)
Fixpoint map_m {A B} (f : A -> M B) (xs : list A) : M (list B) :=
  match xs with
  | [] => mret []
  | x :: rest => y ← f x; ys ← map_m f rest; mret (y :: ys)
  end.

(** ** Store operations *)

(** [container[i]]: [IndexError] outside the sequence. *)
Definition index {A} (xs : list A) (i : nat) : M A :=
  match xs !! i with
  | Some x => mret x
  | None => raise IndexError
  end.

Definition get_model (l : loc) : M Model := fun w =>
  match models w !! l with
  | Some m => (Ok m, w)
  | None => (Raise DanglingRef, w)
  end.

Definition get_meta (l : loc) : M Meta := fun w =>
  match metas w !! l with
  | Some mt => (Ok mt, w)
  | None => (Raise DanglingRef, w)
  end.

Definition put_model (l : loc) (m : Model) : M unit := fun w =>
  (Ok tt, mkWorld (<[l := m]> (models w)) (metas w) (files w) (trace w)).

Definition put_meta (l : loc) (mt : Meta) : M unit := fun w =>
  (Ok tt, mkWorld (models w) (<[l := mt]> (metas w)) (files w) (trace w)).

Definition alloc_model (m : Model) : M loc := fun w =>
  (Ok (length (models w)),
   mkWorld (models w ++ [m]) (metas w) (files w) (trace w)).

Definition alloc_meta (mt : Meta) : M loc := fun w =>
  (Ok (length (metas w)),
   mkWorld (models w) (metas w ++ [mt]) (files w) (trace w)).

Definition emit (e : Event) : M unit := fun w =>
  (Ok tt, mkWorld (models w) (metas w) (files w) (trace w ++ [e])).

Definition hold_file (l : loc) : M unit := fun w =>
  (Ok tt, mkWorld (models w) (metas w) ({[l]} ∪ files w) (trace w)).

Definition drop_file (l : loc) : M unit := fun w =>
  (Ok tt, mkWorld (models w) (metas w) (files w ∖ {[l]}) (trace w)).

(** The image a collaborator is handed for the model at [l]. *)
Definition view (l : loc) : M Image :=
  m ← get_model l;
  mt ← get_meta (meta m);
  mret (mkImage (data m) (dq m) (wht m) mt).

(** [model.wht = a], [model.data = a], [model.dq = a], [model.meta = node] *)
Definition set_wht (l : loc) (a : Array) : M unit :=
  m ← get_model l; put_model l (mkModel (data m) (dq m) a (meta m)).

Definition set_data (l : loc) (a : Array) : M unit :=
  m ← get_model l; put_model l (mkModel a (dq m) (wht m) (meta m)).

Definition set_dq (l : loc) (a : DQArray) : M unit :=
  m ← get_model l; put_model l (mkModel (data m) a (wht m) (meta m)).

Definition set_meta (l : loc) (node : loc) : M unit :=
  m ← get_model l; put_model l (mkModel (data m) (dq m) (wht m) node).

(** [model.meta.filename = path]: the node the model refers to is updated
    in place, whoever else refers to it. *)
Definition set_filename (l : loc) (path : string) : M unit :=
  m ← get_model l;
  mt ← get_meta (meta m);
  put_meta (meta m) (mkMeta (Some path) (other mt)).

(** [model.meta.filename] *)
Definition get_filename (l : loc) : M (option string) :=
  m ← get_model l;
  mt ← get_meta (meta m);
  mret (filename mt).

Definition log_info (msg : LogMsg) : M unit := emit (EvLog msg).

(** [try: m  except Exception as e: handler(e)] *)
Definition attempt {A} (m : M A) (handler : Exn -> M A) : M A := fun w =>
  match m w with
  | (Ok a, w') => (Ok a, w')
  | (Raise e, w') => handler e w'
  end.

(** ** Mask Writer *)

(** One row of [dq |= mask * flag]: a position with no mask entry, or a
    false one, is not touched. *)
Fixpoint or_row (flag : Z) (row : list Z) (mrow : list bool) : list Z :=
  match row, mrow with
  | v :: r, b :: m => (if b then Z.lor v flag else v) :: or_row flag r m
  | _, _ => row
  end.

Fixpoint write_mask (flag : Z) (d : DQArray) (mask : Mask) : DQArray :=
  match d, mask with
  | row :: d', mrow :: mask' => or_row flag row mrow :: write_mask flag d' mask'
  | _, _ => d
  end.

(** ** The detection controller *)

(** The collaborators of the controller, known by their contract only:
    the functions and methods it calls that other modules define. *)
Record Collaborators := mkCollaborators {
  (** [self._convert_inputs] applied to the keyword arguments, a method of
      the parent class: it prepares the instance and does not touch the
      exposures, which it is not given. *)
  convert_inputs : Kwargs -> Result unit;
  (** [ResampleSpecData(input_models, single=True, blendheaders=False, ...)]
      followed by [do_drizzle(input_models)]: new mosaics from the exposures. *)
  do_drizzle : Kwargs -> list Image -> Result (list Mosaic);
  (** [resample_utils.build_driz_weight(model, weight_type=, good_bits=)] *)
  build_driz_weight : Image -> Value -> Value -> Result Array;
  (** [create_median(drizzled_models, maskpt)] *)
  create_median : list Image -> Value -> Result Array;
  (** [model.save(path)] *)
  save : Image -> option string -> Result unit;
  (** Deleting the file behind a container entry. *)
  os_remove : loc -> Result unit;
  (** The Back-Projector: the reference image on an exposure's grid. *)
  blot : Image -> Image -> Result Array;
  (** The Outlier Comparator: exposure data, native reference, [snr],
      [scale], [backg], [resample_data]. *)
  compare : Array -> Array -> Value -> Value -> Value -> Value -> Result Mask;
  (** The bits the Mask Writer sets for an outlier. *)
  outlier_flag : Z
}.

Section Controller.

Variable c : Collaborators.

(** [model.save(path)], with its outcome on record. *)
Definition save_model (l : loc) (path : option string) : M unit :=
  img ← view l;
  match save c img path with
  | Ok _ => emit (EvSave l path)
  | Raise e => emit (EvSaveFailed l path);; raise e
  end.

(** A mosaic handed back by the resampler becomes a new object with a
    meta node of its own. *)
Definition alloc_mosaic (mo : Mosaic) : M loc :=
  node ← alloc_meta (im_meta (mo_image mo));
  l ← alloc_model (mkModel (im_data (mo_image mo)) (im_dq (mo_image mo))
                           (im_wht (mo_image mo)) node);
  (if mo_on_disk mo then hold_file l else mret tt);;
  mret l.

(** Lines 49-51. *)
Definition resample (kw : Kwargs) (input_models : list loc) : M (list loc) :=
  imgs ← map_m view input_models;
  mos ← lift (do_drizzle c kw imgs);
  outs ← map_m alloc_mosaic mos;
  emit (EvDrizzle input_models outs);;
  mret outs.

(** [datamodels.ImageModel(shape)]: a new model of zeros with a new,
    empty meta node. *)
Definition new_image_model (shp : nat * nat) : M loc :=
  node ← alloc_meta (mkMeta None []);
  l ← alloc_model (mkModel (zeros (Finite 0) shp) (zeros 0%Z shp)
                           (zeros (Finite 0) shp) node);
  emit (EvImageModel l shp);;
  mret l.

(** Modelled from the spec: [_remove_file] of utils is not part of the
    sources at hand.  It releases the storage behind a container entry by
    deleting its file; the deletion is the operating system's and may fail. *)
Definition _remove_file (fn : loc) : M unit :=
  lift (os_remove c fn);;
  drop_file fn;;
  emit (EvRemoveFile fn).

(** The NativeReference of an exposure: the reference image itself if
    resampling was disabled and the grid already matches, its
    back-projection otherwise. *)
Definition native_reference (median img : Image) (resample_data : Value)
    (l : loc) : M Array :=
  if negb (truthy resample_data)
     && bool_decide (shape (im_data median) = shape (im_data img))
  then mret (im_data median)
  else emit (EvBlot l);; lift (blot c median img).

(** Step 7 for one exposure: native reference, comparator, mask writer. *)
Definition detect_one (median_model : loc)
    (snr scale backg resample_data : Value) (l : loc) : M unit :=
  img ← view l;
  median ← view median_model;
  nref ← native_reference median img resample_data l;
  emit (EvCompare l);;
  mask ← lift (compare c (im_data img) nref snr scale backg resample_data);
  set_dq l (write_mask (outlier_flag c) (im_dq img) mask).

(** Modelled from the spec: [detect_outliers] of utils is not part of the
    sources at hand.  For each original exposure it obtains the native
    reference, runs the Outlier Comparator and applies the Mask Writer; a
    failure for one exposure is reported for that exposure and the
    remaining exposures continue. *)
Definition detect_outliers (input_models : list loc) (median_model : loc)
    (snr scale backg resample_data : Value) : M unit :=
  for_each input_models (fun l =>
    attempt (detect_one median_model snr scale backg resample_data l)
            (fun e => emit (EvReport l e))).

(** *** [do_detection], phase by phase *)

(** Lines 46-66: the mosaic stack.  With [resample_data] the exposures
    are resampled and the mosaics optionally written out; without it the
    stack is the input container itself, each exposure receiving its
    weight map. *)
Definition make_drizzled (kw : Kwargs) (input_models : list loc)
    : M (list loc) :=
  let save_intermediate_results := save_intermediate_results kw in
  if is_True (resample_data kw) then
    drizzled_models ← resample kw input_models;
    (if truthy save_intermediate_results then
       for_each drizzled_models (fun model =>
         base ← get_filename model;
         path ← lift (make_output_path kw base "_outlier_s2d.fits");
         set_filename model path;;
         log_info WritingResampled;;
         name ← get_filename model;
         save_model model name)
     else mret tt);;
    mret drizzled_models
  else
    let drizzled_models := input_models in
    for_each (seq 0 (length input_models)) (fun i =>
      src ← index input_models i;
      img ← view src;
      w ← lift (build_driz_weight c img (weight_type kw) (good_bits kw));
      emit (EvBuildWeight src);;
      dst ← index drizzled_models i;
      set_wht dst w);;
    mret drizzled_models.

(** Lines 69-74: the median model, its meta node and its file name. *)
Definition init_median (kw : Kwargs) (input_models drizzled_models : list loc)
    : M loc :=
  first ← index drizzled_models 0;
  m0 ← get_model first;
  median_model ← new_image_model (shape (data m0));
  first ← index drizzled_models 0;
  m0 ← get_model first;
  set_meta median_model (meta m0);;
  inp ← index input_models 0;
  base ← get_filename inp;
  path ← lift (make_output_path kw base "median");
  set_filename median_model path;;
  mret median_model.

(** Line 78: the median combination. *)
Definition compute_median (kw : Kwargs) (drizzled_models : list loc)
    (median_model : loc) : M unit :=
  emit (EvCreateMedianCalled drizzled_models);;
  stack ← map_m view drizzled_models;
  r ← lift (create_median c stack (maskpt kw));
  emit EvCreateMedianReturned;;
  set_data median_model r.

(** Lines 80-90: write the median out, or remove the mosaics' files. *)
Definition retain_or_release (kw : Kwargs) (drizzled_models : list loc)
    (median_model : loc) : M unit :=
  if truthy (save_intermediate_results kw) then
    name ← get_filename median_model;
    log_info (WritingMedian name);;
    name ← get_filename median_model;
    save_model median_model name
  else if negb (truthy (in_memory kw)) then
    for_each drizzled_models (fun fn =>
      _remove_file fn;;
      log_info (RemovingFile fn))
  else mret tt.

(** Lines 43-74 together: everything before the median combination. *)
Definition prepare (input_models : list loc) (kw : Kwargs)
    : M (list loc * loc) :=
  lift (convert_inputs c kw);;
  emit EvConvertInputs;;
  drizzled_models ← make_drizzled kw input_models;
  median_model ← init_median kw input_models drizzled_models;
  mret (drizzled_models, median_model).

(** Lines 76-101 together: everything from the median combination on. *)
Definition finish (input_models : list loc) (kw : Kwargs)
    (drizzled_models : list loc) (median_model : loc) : M (list loc * loc) :=
  compute_median kw drizzled_models median_model;;
  retain_or_release kw drizzled_models median_model;;
  detect_outliers input_models median_model
    (snr kw) (scale kw) (backg kw) (resample_data kw);;
  mret (drizzled_models, median_model).

(** The body of [do_detection], handing back the two local names
    [drizzled_models] and [median_model]. *)
Definition do_detection_body (input_models : list loc) (kw : Kwargs)
    : M (list loc * loc) :=
  lift (convert_inputs c kw);;
  emit EvConvertInputs;;
  drizzled_models ← make_drizzled kw input_models;
  median_model ← init_median kw input_models drizzled_models;
  compute_median kw drizzled_models median_model;;
  retain_or_release kw drizzled_models median_model;;
  detect_outliers input_models median_model
    (snr kw) (scale kw) (backg kw) (resample_data kw);;
  mret (drizzled_models, median_model).

(** [do_detection(self, input_models, ...)]: the local names are
    dropped and nothing is returned. *)
Definition do_detection (input_models : list loc) (kw : Kwargs) : M unit :=
  do_detection_body input_models kw;;
  mret tt.

End Controller.

(** ** Median Combiner and Outlier Comparator *)

(** [a[i][j]] where the position exists. *)
Definition pixel {A : Type} (a : list (list A)) (i j : nat) : option A :=
  row ← a !! i; row !! j.

(** A weight read as a number: a non-finite weight carries no usable signal. *)
Definition weight_value (v : flux) : Q :=
  match v with
  | Finite q => q
  | NonFinite => 0%Q
  end.

Definition Qlt_bool (a b : Q) : bool := negb (Qle_bool b a).

(** Stable insertion sort of rationals. *)
Fixpoint insert_sorted (x : Q) (xs : list Q) : list Q :=
  match xs with
  | [] => [x]
  | y :: ys => if Qlt_bool x y then x :: xs else y :: insert_sorted x ys
  end.

Definition sort_q (xs : list Q) : list Q := foldr insert_sorted [] xs.

(** The median of a non-empty list of rationals; an even count averages
    the two central values. *)
Definition median_q (xs : list Q) : Q :=
  let s := sort_q xs in
  let n := length s in
  if Nat.even n
  then ((nth (n / 2 - 1) s 0 + nth (n / 2) s 0) / 2)%Q
  else nth (n / 2) s 0%Q.

(** The finite values of a list of floats, if all of them are finite. *)
Fixpoint all_finite (vs : list flux) : option (list Q) :=
  match vs with
  | [] => Some []
  | Finite q :: rest => qs ← all_finite rest; Some (q :: qs)
  | NonFinite :: _ => None
  end.

(** Float median: a non-finite operand makes the result non-finite. *)
Definition median_flux (vs : list flux) : flux :=
  match all_finite vs with
  | Some qs => Finite (median_q qs)
  | None => NonFinite
  end.

(** "The median of the non-zero weights at that position across the
    stack", the reference weight the design document gives as its example. *)
Definition median_nonzero (ws : list Q) : Q :=
  match filter (fun w => negb (Qeq_bool w 0) = true) ws with
  | [] => 0%Q
  | nz => median_q nz
  end.

Section SpecModel.

(** The stack statistic that gives the reference weight of a position. *)
Variable ref_weight : list Q -> Q.

(** The noise model: the sigma expected at a reference signal level under
    the pair of scale coefficients. *)
Variable noise_sigma : Q -> Q * Q -> Q.

(** The secondary, contextual test of the comparator: exposure data,
    native reference, background, scale, second threshold, row, column. *)
Variable secondary_test : Array -> Array -> Q -> Q * Q -> Q -> nat -> nat -> bool.

(** The samples of one position: data value and weight of every stack
    member that covers it. *)
Definition samples_at (stack : list Image) (i j : nat) : list (flux * Q) :=
  omap (fun im =>
          v ← pixel (im_data im) i j;
          w ← pixel (im_wht im) i j;
          Some (v, weight_value w)) stack.

(** A member takes part at a position if it has weight there (zero weight
    means no usable signal) and its weight is at or above the threshold. *)
Definition included (threshold : Q) (s : flux * Q) : bool :=
  Qlt_bool 0 (snd s) && Qle_bool threshold (snd s).

(** Modelled from the spec: the per-pixel rule of the Median Combiner.
    The inclusion threshold is [maskpt] times the reference weight; the
    output is the median of the included members' values, or non-finite
    if no member is included. *)
Definition combine_pixel (maskpt : Q) (samples : list (flux * Q)) : flux :=
  let threshold := (maskpt * ref_weight (map snd samples))%Q in
  match filter (fun s => included threshold s = true) samples with
  | [] => NonFinite
  | inc => median_flux (map fst inc)
  end.

(** Modelled from the spec: [create_median] of utils is not part of the
    sources at hand.  The Median Combiner reduces the stack, position by
    position, on the grid of the mosaics; an empty stack is a
    [CombineError]. *)
Definition combine (stack : list Image) (maskpt : Q) : Result Array :=
  match stack with
  | [] => Raise CombineError
  | first :: _ =>
      Ok (imap (fun i row =>
                  imap (fun j _ => combine_pixel maskpt (samples_at stack i j)) row)
               (im_data first))
  end.

(** Modelled from the spec: the per-pixel test of the Outlier Comparator.
    A position whose native reference is non-finite is skipped; otherwise
    the residual is tested against the first threshold times sigma, and
    the secondary test has to agree. *)
Definition compare_pixel (data nref : Array) (t : Q * Q) (s : Q * Q)
    (background : Q) (i j : nat) (d : flux) : bool :=
  match pixel nref i j with
  | Some (Finite r) =>
      match d with
      | Finite v =>
          let residual := (v - r - background)%Q in
          let sigma := noise_sigma r s in
          Qlt_bool (fst t * sigma) (Qabs residual)
          && secondary_test data nref background s (snd t) i j
      | NonFinite => false
      end
  | _ => false
  end.

(** Modelled from the spec: the Outlier Comparator of utils is not part
    of the sources at hand.  The mask has the shape of the exposure data. *)
Definition compare_arrays (data nref : Array) (t : Q * Q) (s : Q * Q)
    (background : Q) (resample_was_used : bool) : Mask :=
  imap (fun i row => imap (fun j d => compare_pixel data nref t s background i j d) row)
       data.

(** The two as collaborators of the controller, reading their numeric
    arguments from the keyword values. *)
Definition create_median_spec (stack : list Image) (maskpt : Value)
    : Result Array :=
  match maskpt with
  | VFloat q => combine stack q
  | _ => Raise ConfigError
  end.

Definition compare_spec (data nref : Array) (snr scale backg resample : Value)
    : Result Mask :=
  match snr, scale, backg with
  | VPair t1 t2, VPair s1 s2, VFloat b =>
      Ok (compare_arrays data nref (t1, t2) (s1, s2) b (truthy resample))
  | _, _, _ => Raise ConfigError
  end.

End SpecModel.

(** ** Reasoning about runs *)

(** Every run of [m] relates the world it starts in to the world it ends
    in, however it ends. *)
Definition respects {A} (R : relation World) (m : M A) : Prop :=
  ∀ w r w', m w = (r, w') → R w w'.

(** The run appends events to the trace, all of them satisfying [P]. *)
Definition emits (P : Event → Prop) : relation World := fun w w' =>
  ∃ t, trace w' = trace w ++ t ∧ Forall P t.

Definition is_compare (e : Event) : bool :=
  match e with
  | EvCompare _ => true
  | _ => false
  end.

Definition is_median (e : Event) : bool :=
  match e with
  | EvCreateMedianCalled _ | EvCreateMedianReturned => true
  | _ => false
  end.

Definition is_image_model (e : Event) : bool :=
  match e with
  | EvImageModel _ _ => true
  | _ => false
  end.

Definition is_blot (e : Event) : bool :=
  match e with
  | EvBlot _ => true
  | _ => false
  end.

Definition is_drizzle (e : Event) : bool :=
  match e with
  | EvDrizzle _ _ => true
  | _ => false
  end.

Definition is_save_failed (e : Event) : bool :=
  match e with
  | EvSaveFailed _ _ => true
  | _ => false
  end.


(** The run creates no object and leaves the meta nodes alone; the model
    at [l] changes within [Rm l]. *)
Definition touches (Rm : loc → relation Model) : relation World := fun w w' =>
  metas w' = metas w
  ∧ length (models w') = length (models w)
  ∧ ∀ l m, models w !! l = Some m → ∃ m', models w' !! l = Some m' ∧ Rm l m m'.

(** Every object of the store is still there with the same [f]. *)
Definition kept {X} (f : Model → X) : relation World := fun w w' =>
  ∀ l m, models w !! l = Some m → ∃ m', models w' !! l = Some m' ∧ f m' = f m.

(** Only the quality flags differ. *)
Definition only_dq (m m' : Model) : Prop :=
  data m' = data m ∧ wht m' = wht m ∧ meta m' = meta m.

(** Only the weight map differs. *)
Definition only_wht (m m' : Model) : Prop :=
  data m' = data m ∧ dq m' = dq m ∧ meta m' = meta m.

(** Only the data array differs. *)
Definition only_data (m m' : Model) : Prop :=
  dq m' = dq m ∧ wht m' = wht m ∧ meta m' = meta m.

(** Only the data array of [med] differs. *)
Definition only_data_of (med l : loc) (m m' : Model) : Prop :=
  if decide (l = med) then only_data m m' else m' = m.

(** The models stay as they are, and so do the meta nodes below [nk], as
    long as every model from [n] on refers to a node from [nk] on. *)
Definition guards (n nk : nat) : relation World := fun w w' =>
  models w' = models w
  ∧ length (metas w') = length (metas w)
  ∧ ((∀ l m, n ≤ l → models w !! l = Some m → nk ≤ meta m) →
     ∀ k, k < nk → metas w' !! k = metas w !! k).

(** ** A worked exposure set

    Four exposures of one row and two columns.  The first pixel reads 10
    in three of them and 100 in the third; the second pixel reads 5
    everywhere.  The expected sigma is 2, the thresholds are 5 and 4. *)

Definition ex_path (base : option string) (suffix : string) : Result string :=
  Ok (match base with
      | Some b => b +:+ suffix
      | None => suffix
      end).

Definition ex_kw (resample save_results keep_in_memory : bool) : Kwargs :=
  mkKwargs (VBool save_results) (VBool resample) (VStr "ivm") (VInt 0)
           (VFloat 0.3) (VBool keep_in_memory) (VPair 5 4) (VPair 1 0)
           (VFloat 0) ex_path.

Definition ex_sigma (r : Q) (s : Q * Q) : Q := (fst s * 2 + snd s)%Q.

Definition ex_secondary (data nref : Array) (background : Q) (s : Q * Q)
    (t2 : Q) (i j : nat) : bool :=
  match pixel data i j, pixel nref i j with
  | Some (Finite v), Some (Finite r) =>
      Qlt_bool (t2 * ex_sigma r s) (Qabs (v - r - background))
  | _, _ => false
  end.

Definition ex_ones (a : Array) : Array := map (map (λ _, Finite 1)) a.

(** A resampler that hands every exposure back as a mosaic of full weight,
    in a file unless [in_memory] is set. *)
Definition ex_drizzle (kw : Kwargs) (imgs : list Image) : Result (list Mosaic) :=
  Ok (map (λ im, mkMosaic (mkImage (im_data im) (im_dq im) (ex_ones (im_data im))
                                   (im_meta im))
                          (negb (truthy (in_memory kw)))) imgs).

Definition ex_collab : Collaborators :=
  mkCollaborators
    (λ _, Ok tt)
    ex_drizzle
    (λ img _ _, Ok (ex_ones (im_data img)))
    (create_median_spec median_nonzero)
    (λ _ _, Ok tt)
    (λ _, Ok tt)
    (λ median _, Ok (im_data median))
    (compare_spec ex_sigma ex_secondary)
    16%Z.

(** The same collaborators with a disk that refuses every write. *)
Definition ex_collab_disk_full : Collaborators :=
  mkCollaborators
    (convert_inputs ex_collab) (do_drizzle ex_collab)
    (build_driz_weight ex_collab) (create_median ex_collab)
    (λ _ _, Raise PersistenceError)
    (os_remove ex_collab) (blot ex_collab) (compare ex_collab)
    (outlier_flag ex_collab).

(** The same collaborators with a median combination that fails. *)
Definition ex_collab_no_median : Collaborators :=
  mkCollaborators
    (convert_inputs ex_collab) (do_drizzle ex_collab)
    (build_driz_weight ex_collab) (λ _ _, Raise CombineError)
    (save ex_collab)
    (os_remove ex_collab) (blot ex_collab) (compare ex_collab)
    (outlier_flag ex_collab).

(** The same collaborators with a resampler that fails. *)
Definition ex_collab_no_resample : Collaborators :=
  mkCollaborators
    (convert_inputs ex_collab) (λ _ _, Raise ResampleError)
    (build_driz_weight ex_collab) (create_median ex_collab)
    (save ex_collab)
    (os_remove ex_collab) (blot ex_collab) (compare ex_collab)
    (outlier_flag ex_collab).

(** The same collaborators with a resampler that hands back no mosaic. *)
Definition ex_collab_empty_resample : Collaborators :=
  mkCollaborators
    (convert_inputs ex_collab) (λ _ _, Ok [])
    (build_driz_weight ex_collab) (create_median ex_collab)
    (save ex_collab)
    (os_remove ex_collab) (blot ex_collab) (compare ex_collab)
    (outlier_flag ex_collab).

(** The same collaborators with a weight builder that fails for the third
    exposure. *)
Definition ex_collab_bad_weight : Collaborators :=
  mkCollaborators
    (convert_inputs ex_collab) (do_drizzle ex_collab)
    (λ img _ _,
       if bool_decide (filename (im_meta img) = Some "exp3.fits")
       then Raise WeightError
       else Ok (ex_ones (im_data img)))
    (create_median ex_collab)
    (save ex_collab)
    (os_remove ex_collab) (blot ex_collab) (compare ex_collab)
    (outlier_flag ex_collab).

Definition ex_exposure (first : Q) (flags : Z) (node : loc) : Model :=
  mkModel [[Finite first; Finite 5]] [[flags; 0%Z]]
          [[Finite 0; Finite 0]] node.

Definition ex_world : World :=
  mkWorld
    [ex_exposure 10 0 0; ex_exposure 10 4 1; ex_exposure 100 0 2;
     ex_exposure 10 0 3]
    [mkMeta (Some "exp1.fits") []; mkMeta (Some "exp2.fits") [];
     mkMeta (Some "exp3.fits") []; mkMeta (Some "exp4.fits") []]
    ∅ [].

Definition ex_inputs : list loc := [0; 1; 2; 3].

(** The same collaborators with a back-projection that fails for the
    second exposure. *)
Definition ex_collab_bad_blot : Collaborators :=
  mkCollaborators
    (convert_inputs ex_collab) (do_drizzle ex_collab)
    (build_driz_weight ex_collab) (create_median ex_collab)
    (save ex_collab) (os_remove ex_collab)
    (λ median img,
       if bool_decide (filename (im_meta img) = Some "exp2.fits")
       then Raise PerExposureError
       else Ok (im_data median))
    (compare ex_collab)
    (outlier_flag ex_collab).

(** The worked exposure set with a reference image next to it. *)
Definition ex_world_with_median : World :=
  mkWorld
    (models ex_world ++ [mkModel [[Finite 10; Finite 5]] [[0%Z; 0%Z]]
                                 [[Finite 0; Finite 0]] 4])
    (metas ex_world ++ [mkMeta (Some "median.fits") []])
    ∅ [].

(** Two mosaics that both have no weight in the second column. *)
Definition ex_stack : list Image :=
  [mkImage [[Finite 10; Finite 5]] [[0%Z; 0%Z]] [[Finite 1; Finite 0]]
           (mkMeta (Some "m1.fits") []);
   mkImage [[Finite 12; Finite 7]] [[0%Z; 0%Z]] [[Finite 1; Finite 0]]
           (mkMeta (Some "m2.fits") [])].


(** The literal reading of "released on every exit path": however the run
    ends, if intermediate results are neither saved nor kept in memory, no
    mosaic the resampler has made is still held in a file. *)
Definition releases_on_every_exit (c : Collaborators) (input_models : list loc)
    (kw : Kwargs) (w : World) : Prop :=
  truthy (save_intermediate_results kw) = false →
  truthy (in_memory kw) = false →
  ∀ r w', do_detection c input_models kw w = (r, w') →
    ∀ ins outs l, EvDrizzle ins outs ∈ trace w' → l ∈ outs → l ∉ files w'.

(** The run leaves the set of held files alone. *)
Definition files_same : relation World := fun w w' => files w' = files w.

(** The literal reading of "a failure writing an intermediate product is
    recovered": whenever a write has failed, the run still returns and the
    comparator has been run on every exposure. *)
Definition recovers_from_write_failure (c : Collaborators)
    (input_models : list loc) (kw : Kwargs) (w : World) : Prop :=
  ∀ r w', do_detection c input_models kw w = (r, w') →
    (∃ l p, EvSaveFailed l p ∈ trace w') →
    r = Ok tt ∧ ∀ l, l ∈ input_models → EvCompare l ∈ trace w'.

(** Every run of [m] that returns relates its two worlds. *)
Definition ok_respects {A} (R : relation World) (m : M A) : Prop :=
  ∀ w a w', m w = (Ok a, w') → R w w'.

(** What step 7 comes to for one exposure, from the reference image and
    the exposure as they are when its turn comes: the outlier mask, or the
    exception that projecting or comparing raised. *)
Definition exposure_outcome (c : Collaborators) (median img : Image)
    (snr scale backg resample_data : Value) : Result Mask :=
  match (if negb (truthy resample_data)
            && bool_decide (shape (im_data median) = shape (im_data img))
         then Ok (im_data median)
         else blot c median img) with
  | Ok nref => compare c (im_data img) nref snr scale backg resample_data
  | Raise e => Raise e
  end.

(** The run leaves the meta nodes alone, and the models outside [ls] too. *)
Definition outside (ls : list loc) : relation World := fun w w' =>
  metas w' = metas w ∧ ∀ l, l ∉ ls → models w' !! l = models w !! l.

Definition is_remove (e : Event) : bool :=
  match e with
  | EvRemoveFile _ => true
  | _ => false
  end.

Definition is_build_weight (e : Event) : bool :=
  match e with
  | EvBuildWeight _ => true
  | _ => false
  end.

(** The events of step 7. *)
Definition is_detect (e : Event) : bool :=
  match e with
  | EvBlot _ | EvCompare _ | EvReport _ _ => true
  | _ => false
  end.

(** The run releases no file. *)
Definition files_grow : relation World := fun w w' => files w ⊆ files w'.

(** The calls of lines 46-66 when they get through: the resampler and, if
    intermediate results are saved, a log message and a [save] per mosaic
    in the order of the stack; or, without resampling, a weight map per
    exposure in the order of the container. *)
Definition stack_calls (kw : Kwargs) (input_models drizzled_models : list loc)
    (paths : list string) : list Event :=
  if is_True (resample_data kw)
  then EvDrizzle input_models drizzled_models
       :: (if truthy (save_intermediate_results kw)
           then flat_map (λ lp, [EvLog WritingResampled; EvSave lp.1 (Some lp.2)])
                         (zip drizzled_models paths)
           else [])
  else map EvBuildWeight input_models.

(** The calls of lines 80-90 when they get through. *)
Definition retention_calls (kw : Kwargs) (drizzled_models : list loc)
    (median_model : loc) (name : option string) : list Event :=
  if truthy (save_intermediate_results kw)
  then [EvLog (WritingMedian name); EvSave median_model name]
  else if negb (truthy (in_memory kw))
       then flat_map (λ fn, [EvRemoveFile fn; EvLog (RemovingFile fn)])
                     drizzled_models
       else [].

(** The files a run has written, in the order of writing: the [save]
    calls that got through. *)
Definition saves_of (t : list Event) : list (loc * option string) :=
  omap (λ e, match e with
             | EvSave l path => Some (l, path)
             | _ => None
             end) t.

(** * Properties *)

Create HintDb mdefs.
#[global] Hint Unfold view get_filename log_info save_model alloc_mosaic
  resample new_image_model _remove_file native_reference detect_one
  detect_outliers make_drizzled init_median compute_median retain_or_release
  do_detection_body do_detection index : mdefs.

Create HintDb msetters.
#[global] Hint Unfold set_wht set_data set_dq set_meta set_filename : msetters.

Lemma bind_run {A B} (m : M A) (f : A → M B) (w : World) :
  (m ≫= f) w = match m w with
               | (Ok a, w') => f a w'
               | (Raise e, w') => (Raise e, w')
               end.
Proof. reflexivity. Qed.

Lemma bind_inv {A B} (m : M A) (f : A → M B) (w w' : World) (r : Result B) :
  (m ≫= f) w = (r, w') →
  (∃ a w1, m w = (Ok a, w1) ∧ f a w1 = (r, w'))
  ∨ (∃ e, m w = (Raise e, w') ∧ r = Raise e).
Proof.
  rewrite bind_run. destruct (m w) as [[a|e] w1]; intros H.
  - left. eauto.
  - right. inversion H; subst. eauto.
Qed.

Section Respects.

Context (R : relation World) `{!PreOrder R}.

Lemma respects_pure {A} (m : M A) :
  (∀ w, snd (m w) = w) → respects R m.
Proof.
  intros Hm w r w' E. specialize (Hm w). rewrite E in Hm. simpl in Hm.
  subst. reflexivity.
Qed.

Lemma respects_ret {A} (a : A) : respects R (mret a).
Proof. apply respects_pure. reflexivity. Qed.

Lemma respects_raise {A} (e : Exn) : respects R (@raise A e).
Proof. apply respects_pure. reflexivity. Qed.

Lemma respects_lift {A} (r : Result A) : respects R (lift r).
Proof. apply respects_pure. reflexivity. Qed.

Lemma respects_get_model l : respects R (get_model l).
Proof.
  apply respects_pure. intros w. unfold get_model.
  destruct (models w !! l); reflexivity.
Qed.

Lemma respects_get_meta l : respects R (get_meta l).
Proof.
  apply respects_pure. intros w. unfold get_meta.
  destruct (metas w !! l); reflexivity.
Qed.

Lemma respects_bind {A B} (m : M A) (f : A → M B) :
  respects R m → (∀ a, respects R (f a)) → respects R (m ≫= f).
Proof.
  intros Hm Hf w r w' E.
  apply bind_inv in E as [(a & w1 & E1 & E2) | (e & E1 & _)].
  - transitivity w1; [eapply Hm | eapply Hf]; eauto.
  - eapply Hm; eauto.
Qed.

Lemma respects_for_each {A} (xs : list A) (body : A → M unit) :
  (∀ x, x ∈ xs → respects R (body x)) → respects R (for_each xs body).
Proof.
  induction xs as [|x xs IH]; intros Hb; simpl.
  - apply respects_ret.
  - apply respects_bind.
    + apply Hb. left.
    + intros _. apply IH. intros y Hy. apply Hb. by right.
Qed.

Lemma respects_map_m {A B} (f : A → M B) (xs : list A) :
  (∀ x, x ∈ xs → respects R (f x)) → respects R (map_m f xs).
Proof.
  induction xs as [|x xs IH]; intros Hb; simpl.
  - apply respects_ret.
  - apply respects_bind; [apply Hb; left|].
    intros y. apply respects_bind.
    + apply IH. intros z Hz. apply Hb. by right.
    + intros ys. apply respects_ret.
Qed.

Lemma respects_attempt {A} (m : M A) (h : Exn → M A) :
  respects R m → (∀ e, respects R (h e)) → respects R (attempt m h).
Proof.
  intros Hm Hh w r w' E. unfold attempt in E.
  destruct (m w) as [[a|e] w1] eqn:E1.
  - inversion E; subst. eapply Hm; eauto.
  - transitivity w1; [eapply Hm | eapply Hh]; eauto.
Qed.

End Respects.

(** Decomposes a goal [respects R prog] along the structure of [prog];
    [prim] closes the goals left for operations on the store. *)
Ltac respects_with prim :=
  autounfold with mdefs;
  repeat first
    [ match goal with |- PreOrder _ => typeclasses eauto end
    | prim
    | apply respects_ret
    | apply respects_raise
    | apply respects_lift
    | apply respects_get_model
    | apply respects_get_meta
    | apply respects_bind; [ | | intros ? ]
    | apply respects_for_each; [ | intros ? ? ]
    | apply respects_map_m; [ | intros ? ? ]
    | apply respects_attempt; [ | | intros ? ]
    | match goal with
      | |- respects _ (if ?b then _ else _) => destruct b
      | |- respects _ (match ?x with _ => _ end) => destruct x
      | |- respects _ (let _ := _ in _) => cbv zeta
      end
    | progress autounfold with mdefs ].

#[global] Instance emits_preorder (P : Event → Prop) : PreOrder (emits P).
Proof.
  split.
  - intros w. exists []. by rewrite app_nil_r.
  - intros w1 w2 w3 (t1 & E1 & F1) (t2 & E2 & F2).
    exists (t1 ++ t2). rewrite E2, E1, <- app_assoc. split; [done|].
    by apply Forall_app.
Qed.

Lemma emits_silent {A} (P : Event → Prop) (m : M A) :
  (∀ w, trace (snd (m w)) = trace w) → respects (emits P) m.
Proof.
  intros Hm w r w' E. specialize (Hm w). rewrite E in Hm. simpl in Hm.
  exists []. by rewrite app_nil_r.
Qed.

Lemma emits_emit (P : Event → Prop) (e : Event) :
  P e → respects (emits P) (emit e).
Proof.
  intros He w r w' E. inversion E; subst. exists [e]. simpl. split; [done|].
  by constructor.
Qed.

Ltac emits_prim :=
  first
    [ apply emits_emit; first [ done | assumption | solve [eauto] ]
    | apply emits_silent; intros ?; reflexivity
    | progress autounfold with msetters ].

Lemma bind_ok {A B} (m : M A) (f : A → M B) (w w' : World) (b : B) :
  (m ≫= f) w = (Ok b, w') →
  ∃ a w1, m w = (Ok a, w1) ∧ f a w1 = (Ok b, w').
Proof.
  intros H. apply bind_inv in H as [(a & w1 & E1 & E2) | (e & _ & ?)];
    [eauto | discriminate].
Qed.

Lemma emits_nothing (w w' : World) :
  emits (λ _, False) w w' → trace w' = trace w.
Proof.
  intros (t & E & F). destruct t as [|e t]; [by rewrite app_nil_r in E|].
  by inversion F.
Qed.

(** A trace that splits at a comparison whose first part has none splits
    inside its second part. *)
Lemma split_after_prefix (early late pre post : list Event) (l : loc) :
  Forall (λ e, is_compare e = false) early →
  early ++ late = pre ++ EvCompare l :: post →
  ∃ mid, pre = early ++ mid ∧ late = mid ++ EvCompare l :: post.
Proof.
  revert pre. induction early as [|e early IH]; intros pre F E.
  - exists pre. by simpl in *.
  - inversion F as [|? ? He F']; subst.
    destruct pre as [|p pre]; simpl in E.
    + inversion E; subst. discriminate.
    + inversion E; subst. destruct (IH pre F' H1) as (mid & -> & ->).
      by exists mid.
Qed.

(** *** Runs that only touch some fields *)

#[global] Instance only_dq_preorder : PreOrder only_dq.
Proof.
  split; [by intros m|].
  intros a b d (? & ? & ?) (? & ? & ?). unfold only_dq. by repeat split; etrans.
Qed.

#[global] Instance only_wht_preorder : PreOrder only_wht.
Proof.
  split; [by intros m|].
  intros a b d (? & ? & ?) (? & ? & ?). unfold only_wht. by repeat split; etrans.
Qed.

#[global] Instance only_data_preorder : PreOrder only_data.
Proof.
  split; [by intros m|].
  intros a b d (? & ? & ?) (? & ? & ?). unfold only_data. by repeat split; etrans.
Qed.

#[global] Instance only_data_of_preorder med l : PreOrder (only_data_of med l).
Proof.
  unfold only_data_of. destruct (decide (l = med)).
  - apply only_data_preorder.
  - split; [by intros m | by intros a b d -> ->].
Qed.

#[global] Instance touches_preorder (Rm : loc → relation Model) :
  (∀ l, PreOrder (Rm l)) → PreOrder (touches Rm).
Proof.
  intros HR. split.
  - intros w. repeat split. intros l m Hm. exists m. split; [done|]. reflexivity.
  - intros w1 w2 w3 (Ht1 & Hl1 & H1) (Ht2 & Hl2 & H2). repeat split.
    + by rewrite Ht2.
    + by rewrite Hl2.
    + intros l m Hm. destruct (H1 l m Hm) as (m1 & Hm1 & R1).
      destruct (H2 l m1 Hm1) as (m2 & Hm2 & R2).
      exists m2. split; [done|]. by etrans.
Qed.

#[global] Instance kept_preorder {X} (f : Model → X) : PreOrder (kept f).
Proof.
  split.
  - intros w l m Hm. eauto.
  - intros w1 w2 w3 H1 H2 l m Hm. destruct (H1 l m Hm) as (m1 & Hm1 & E1).
    destruct (H2 l m1 Hm1) as (m2 & Hm2 & E2). exists m2. split; [done|].
    by rewrite E2.
Qed.

Lemma touches_insert (Rm : loc → relation Model) w l m m' :
  (∀ l, PreOrder (Rm l)) → models w !! l = Some m → Rm l m m' →
  touches Rm w (mkWorld (<[l := m']> (models w)) (metas w) (files w) (trace w)).
Proof.
  intros HR Hm HRm. repeat split; simpl.
  - apply length_insert.
  - intros l0 m0 Hm0. destruct (decide (l0 = l)) as [->|Hne].
    + rewrite Hm in Hm0. inversion Hm0; subst. exists m'. split; [|done].
      apply list_lookup_insert_eq. by eapply lookup_lt_Some.
    + exists m0. split; [|reflexivity]. by rewrite list_lookup_insert_ne.
Qed.

Lemma kept_insert {X} (f : Model → X) w l m m' ts fs tr :
  models w !! l = Some m → f m' = f m →
  kept f w (mkWorld (<[l := m']> (models w)) ts fs tr).
Proof.
  intros Hm Hf l0 m0 Hm0. simpl. destruct (decide (l0 = l)) as [->|Hne].
  - rewrite Hm in Hm0. inversion Hm0; subst. exists m'. split; [|done].
    apply list_lookup_insert_eq. by eapply lookup_lt_Some.
  - exists m0. split; [|done]. by rewrite list_lookup_insert_ne.
Qed.

(** A setter either finds no object and changes nothing, or replaces the
    object at [l] by [g] of it. *)
Definition updates (l : loc) (g : Model → Model) (m : M unit) : Prop :=
  ∀ w r w', m w = (r, w') →
    w' = w ∨ ∃ m0, models w !! l = Some m0
                   ∧ w' = mkWorld (<[l := g m0]> (models w)) (metas w)
                                  (files w) (trace w).

Lemma set_dq_updates l a :
  updates l (λ m, mkModel (data m) a (wht m) (meta m)) (set_dq l a).
Proof.
  intros w r w'. unfold set_dq, get_model, put_model. rewrite bind_run.
  destruct (models w !! l) as [m|]; inversion 1; subst; eauto.
Qed.

Lemma set_wht_updates l a :
  updates l (λ m, mkModel (data m) (dq m) a (meta m)) (set_wht l a).
Proof.
  intros w r w'. unfold set_wht, get_model, put_model. rewrite bind_run.
  destruct (models w !! l) as [m|]; inversion 1; subst; eauto.
Qed.

Lemma set_data_updates l a :
  updates l (λ m, mkModel a (dq m) (wht m) (meta m)) (set_data l a).
Proof.
  intros w r w'. unfold set_data, get_model, put_model. rewrite bind_run.
  destruct (models w !! l) as [m|]; inversion 1; subst; eauto.
Qed.

Lemma set_meta_updates l node :
  updates l (λ m, mkModel (data m) (dq m) (wht m) node) (set_meta l node).
Proof.
  intros w r w'. unfold set_meta, get_model, put_model. rewrite bind_run.
  destruct (models w !! l) as [m|]; inversion 1; subst; eauto.
Qed.

Lemma touches_updates (Rm : loc → relation Model) l g m :
  (∀ l, PreOrder (Rm l)) → updates l g m → (∀ m0, Rm l m0 (g m0)) →
  respects (touches Rm) m.
Proof.
  intros HR Hu Hg w r w' E. destruct (Hu w r w' E) as [->|(m0 & Hm0 & ->)].
  - reflexivity.
  - by apply touches_insert with m0.
Qed.

Lemma kept_updates {X} (f : Model → X) l g m :
  updates l g m → (∀ m0, f (g m0) = f m0) → respects (kept f) m.
Proof.
  intros Hu Hg w r w' E. destruct (Hu w r w' E) as [->|(m0 & Hm0 & ->)].
  - reflexivity.
  - by apply kept_insert with m0.
Qed.

Lemma touches_quiet {A} (Rm : loc → relation Model) (m : M A) :
  (∀ l, PreOrder (Rm l)) →
  (∀ w, models (m w).2 = models w ∧ metas (m w).2 = metas w) →
  respects (touches Rm) m.
Proof.
  intros HR Hm w r w' E. specialize (Hm w). rewrite E in Hm. simpl in Hm.
  destruct Hm as [Hmo Hme]. repeat split; [done|by rewrite Hmo|].
  intros l m0 Hm0. exists m0. rewrite Hmo. split; [done|reflexivity].
Qed.

Lemma kept_quiet {A X} (f : Model → X) (m : M A) :
  (∀ w, models (m w).2 = models w) → respects (kept f) m.
Proof.
  intros Hm w r w' E. specialize (Hm w). rewrite E in Hm. simpl in Hm.
  intros l m0 Hm0. exists m0. by rewrite Hm.
Qed.

Lemma kept_alloc_model {X} (f : Model → X) (m0 : Model) :
  respects (kept f) (alloc_model m0).
Proof.
  intros w r w' E. inversion E; subst. intros l m Hm. exists m. simpl.
  split; [|done]. by apply lookup_app_l_Some.
Qed.

Lemma kept_set_filename {X} (f : Model → X) l path :
  respects (kept f) (set_filename l path).
Proof.
  apply kept_quiet. intros w. unfold set_filename, get_model, get_meta, put_meta.
  rewrite bind_run. destruct (models w !! l) as [m|]; [|done].
  rewrite bind_run. by destruct (metas w !! meta m).
Qed.

Ltac touches_prim :=
  first
    [ eapply touches_updates;
      [ typeclasses eauto
      | first [ apply set_dq_updates | apply set_wht_updates
              | apply set_data_updates ]
      | intros ?; unfold only_data_of, only_dq, only_wht, only_data;
        repeat case_decide; done ]
    | apply touches_quiet; [ typeclasses eauto | intros ?; by split ] ].

Ltac kept_prim :=
  first
    [ eapply kept_updates;
      [ first [ apply set_dq_updates | apply set_wht_updates
              | apply set_data_updates | apply set_meta_updates ]
      | intros ?; done ]
    | apply kept_alloc_model
    | apply kept_set_filename
    | apply kept_quiet; intros ?; reflexivity ].

(** *** What a successful step tells *)

Lemma mret_ok {A} (a b : A) (w w' : World) :
  (mret a : M A) w = (Ok b, w') → w' = w ∧ b = a.
Proof. by inversion 1. Qed.

Lemma lift_ok {A} (r : Result A) (a : A) (w w' : World) :
  lift r w = (Ok a, w') → w' = w ∧ r = Ok a.
Proof. by inversion 1. Qed.

Lemma index_ok {A} (xs : list A) (i : nat) (x : A) (w w' : World) :
  index xs i w = (Ok x, w') → w' = w ∧ xs !! i = Some x.
Proof. unfold index. destruct (xs !! i); by inversion 1. Qed.

Lemma get_model_ok l m w w' :
  get_model l w = (Ok m, w') → w' = w ∧ models w !! l = Some m.
Proof. unfold get_model. destruct (models w !! l); by inversion 1. Qed.

Lemma get_meta_ok l t w w' :
  get_meta l w = (Ok t, w') → w' = w ∧ metas w !! l = Some t.
Proof. unfold get_meta. destruct (metas w !! l); by inversion 1. Qed.

Lemma view_ok l img w w' :
  view l w = (Ok img, w') →
  w' = w ∧ ∃ m t, models w !! l = Some m ∧ metas w !! meta m = Some t
                  ∧ img = mkImage (data m) (dq m) (wht m) t.
Proof.
  unfold view. intros H.
  apply bind_ok in H as (m & w1 & H1 & H). apply get_model_ok in H1 as [-> Hm].
  apply bind_ok in H as (t & w1 & H1 & H). apply get_meta_ok in H1 as [-> Ht].
  apply mret_ok in H as [-> ->]. eauto 10.
Qed.

Lemma get_filename_ok l name w w' :
  get_filename l w = (Ok name, w') →
  w' = w ∧ ∃ m t, models w !! l = Some m ∧ metas w !! meta m = Some t
                  ∧ name = filename t.
Proof.
  unfold get_filename. intros H.
  apply bind_ok in H as (m & w1 & H1 & H). apply get_model_ok in H1 as [-> Hm].
  apply bind_ok in H as (t & w1 & H1 & H). apply get_meta_ok in H1 as [-> Ht].
  apply mret_ok in H as [-> ->]. eauto 10.
Qed.

Lemma set_wht_ok l a w w' :
  set_wht l a w = (Ok tt, w') →
  ∃ m, models w !! l = Some m
       ∧ w' = mkWorld (<[l := mkModel (data m) (dq m) a (meta m)]> (models w))
                      (metas w) (files w) (trace w).
Proof.
  unfold set_wht. intros H.
  apply bind_ok in H as (m & w1 & H1 & H). apply get_model_ok in H1 as [-> Hm].
  inversion H; subst. eauto.
Qed.


Lemma set_dq_ok l a w w' :
  set_dq l a w = (Ok tt, w') →
  ∃ m, models w !! l = Some m
       ∧ w' = mkWorld (<[l := mkModel (data m) a (wht m) (meta m)]> (models w))
                      (metas w) (files w) (trace w).
Proof.
  unfold set_dq. intros H.
  apply bind_ok in H as (m & w1 & H1 & H). apply get_model_ok in H1 as [-> Hm].
  inversion H; subst. eauto.
Qed.

Lemma set_meta_ok l node w w' :
  set_meta l node w = (Ok tt, w') →
  ∃ m, models w !! l = Some m
       ∧ w' = mkWorld (<[l := mkModel (data m) (dq m) (wht m) node]> (models w))
                      (metas w) (files w) (trace w).
Proof.
  unfold set_meta. intros H.
  apply bind_ok in H as (m & w1 & H1 & H). apply get_model_ok in H1 as [-> Hm].
  inversion H; subst. eauto.
Qed.

Lemma set_filename_ok l path w w' :
  set_filename l path w = (Ok tt, w') →
  ∃ m t, models w !! l = Some m ∧ metas w !! meta m = Some t
         ∧ w' = mkWorld (models w)
                        (<[meta m := mkMeta (Some path) (other t)]> (metas w))
                        (files w) (trace w).
Proof.
  unfold set_filename. intros H.
  apply bind_ok in H as (m & w1 & H1 & H). apply get_model_ok in H1 as [-> Hm].
  apply bind_ok in H as (t & w1 & H1 & H). apply get_meta_ok in H1 as [-> Ht].
  inversion H; subst. eauto 10.
Qed.

Lemma new_image_model_ok shp l w w' :
  new_image_model shp w = (Ok l, w') →
  l = length (models w)
  ∧ w' = mkWorld (models w ++ [mkModel (zeros (Finite 0) shp) (zeros 0%Z shp)
                                        (zeros (Finite 0) shp)
                                        (length (metas w))])
                 (metas w ++ [mkMeta None []]) (files w)
                 (trace w ++ [EvImageModel (length (models w)) shp]).
Proof. by inversion 1. Qed.

(** Lines 69-74, when they succeed: the median model is the newest object
    of the store, it refers to the meta node of the first mosaic, and that
    node now carries the median file name. *)
Lemma init_median_ok kw ins drz w med w' :
  init_median kw ins drz w = (Ok med, w') →
  ∃ d0 m0 i0 path t0,
    drz !! 0 = Some d0 ∧ models w !! d0 = Some m0 ∧ ins !! 0 = Some i0
    ∧ med = length (models w)
    ∧ (metas w ++ [mkMeta None []]) !! meta m0 = Some t0
    ∧ (∃ im it,
         (models w ++ [mkModel (zeros (Finite 0) (shape (data m0)))
                               (zeros 0%Z (shape (data m0)))
                               (zeros (Finite 0) (shape (data m0)))
                               (meta m0)]) !! i0 = Some im
         ∧ (metas w ++ [mkMeta None []]) !! meta im = Some it
         ∧ make_output_path kw (filename it) "median" = Ok path)
    ∧ w' = mkWorld
             (models w ++ [mkModel (zeros (Finite 0) (shape (data m0)))
                                   (zeros 0%Z (shape (data m0)))
                                   (zeros (Finite 0) (shape (data m0)))
                                   (meta m0)])
             (<[meta m0 := mkMeta (Some path) (other t0)]>
                (metas w ++ [mkMeta None []]))
             (files w)
             (trace w ++ [EvImageModel med (shape (data m0))]).
Proof.
  unfold init_median. intros H.
  apply bind_ok in H as (d0 & w1 & H1 & H). apply index_ok in H1 as [-> Hd0].
  apply bind_ok in H as (m0 & w1 & H1 & H). apply get_model_ok in H1 as [-> Hm0].
  apply bind_ok in H as (l & w1 & H1 & H).
  apply new_image_model_ok in H1 as [-> ->].
  apply bind_ok in H as (d0' & w1 & H1 & H). apply index_ok in H1 as [-> Hd0'].
  rewrite Hd0 in Hd0'. inversion Hd0'; subst d0'; clear Hd0'.
  apply bind_ok in H as (m0' & w1 & H1 & H). apply get_model_ok in H1 as [-> Hm0'].
  cbn [models] in Hm0'. rewrite (lookup_app_l_Some _ _ _ _ Hm0) in Hm0'.
  inversion Hm0'; subst m0'; clear Hm0'.
  apply bind_ok in H as ([] & w1 & H1 & H). apply set_meta_ok in H1 as (mm & Hmm & ->).
  cbn [models metas files trace] in *.
  rewrite lookup_app_r, Nat.sub_diag in Hmm by lia. inversion Hmm; subst mm; clear Hmm.
  cbn [data dq wht meta] in *.
  rewrite insert_app_r_alt, Nat.sub_diag in H by lia. cbn [insert list_insert] in H.
  apply bind_ok in H as (i0 & w1 & H1 & H). apply index_ok in H1 as [-> Hi0].
  apply bind_ok in H as (base & w1 & H1 & H).
  apply get_filename_ok in H1 as [-> (im & it & Him & Hit & ->)].
  cbn [models metas files trace] in *.
  apply bind_ok in H as (path & w1 & H1 & H). apply lift_ok in H1 as [-> Hpath].
  apply bind_ok in H as ([] & w1 & H1 & H).
  apply set_filename_ok in H1 as (mm & t0 & Hmm & Ht0 & ->).
  cbn [models metas files trace] in *.
  rewrite lookup_app_r, Nat.sub_diag in Hmm by lia. inversion Hmm; subst mm; clear Hmm.
  cbn [meta] in *.
  apply mret_ok in H as [-> ->].
  exists d0, m0, i0, path, t0. repeat split; eauto.
Qed.

(** *** New objects *)

(** The store grows by new objects only, and every new model refers to a
    new meta node. *)
Definition grows (w w' : World) : Prop :=
  ∃ news nodes,
    models w' = models w ++ news
    ∧ metas w' = metas w ++ nodes
    ∧ trace w' = trace w
    ∧ Forall (λ m, length (metas w) ≤ meta m) news.

#[global] Instance grows_preorder : PreOrder grows.
Proof.
  split.
  - intros w. exists [], []. by rewrite !app_nil_r.
  - intros w1 w2 w3 (n1 & t1 & Hm1 & Ht1 & Htr1 & F1) (n2 & t2 & Hm2 & Ht2 & Htr2 & F2).
    exists (n1 ++ n2), (t1 ++ t2).
    rewrite Hm2, Hm1, Ht2, Ht1, Htr2, Htr1, <- !app_assoc.
    repeat split. apply Forall_app. split; [done|].
    eapply Forall_impl; [exact F2|]. intros m Hm. simpl in Hm.
    rewrite Ht1, length_app in Hm. lia.
Qed.

Lemma alloc_mosaic_grows mo : respects grows (alloc_mosaic mo).
Proof.
  intros w r w'. unfold alloc_mosaic. rewrite !bind_run. simpl.
  destruct (mo_on_disk mo); inversion 1; subst; simpl.
  all: eexists [_], [_]; repeat split; simpl; repeat constructor; simpl; lia.
Qed.

Lemma map_m_alloc_mosaic_ok mos w outs w' :
  map_m alloc_mosaic mos w = (Ok outs, w') →
  grows w w' ∧ Forall (λ l, length (models w) ≤ l < length (models w')) outs.
Proof.
  revert w outs. induction mos as [|mo mos IH]; intros w outs H; simpl in H.
  - apply mret_ok in H as [-> ->]. split; [reflexivity|constructor].
  - apply bind_ok in H as (l & w1 & H1 & H).
    apply bind_ok in H as (ls & w2 & H2 & H).
    apply mret_ok in H as [-> ->].
    pose proof (alloc_mosaic_grows mo _ _ _ H1) as G1.
    destruct (IH _ _ H2) as [G2 F2].
    split; [by etrans|].
    destruct G1 as (n1 & t1 & Hm1 & _). destruct G2 as (n2 & t2 & Hm2 & _).
    assert (l = length (models w) ∧ length (models w) < length (models w1))
      as [-> Hlt].
    { revert H1. unfold alloc_mosaic. rewrite !bind_run. simpl.
      destruct (mo_on_disk mo); inversion 1; subst; simpl;
        rewrite length_app; simpl; lia. }
    constructor.
    + rewrite Hm2, length_app. lia.
    + eapply Forall_impl; [exact F2|]. intros x Hx. simpl in Hx. lia.
Qed.

#[global] Instance guards_preorder n nk : PreOrder (guards n nk).
Proof.
  split.
  - intros w. by repeat split.
  - intros w1 w2 w3 (Hm1 & Hl1 & H1) (Hm2 & Hl2 & H2). repeat split.
    + congruence.
    + congruence.
    + intros Hinv k Hk. rewrite H2, H1; try done. by rewrite Hm1.
Qed.

Lemma guards_quiet {A} n nk (m : M A) :
  (∀ w, models (m w).2 = models w ∧ metas (m w).2 = metas w) →
  respects (guards n nk) m.
Proof.
  intros Hm w r w' E. specialize (Hm w). rewrite E in Hm. simpl in Hm.
  destruct Hm as [Hmo Hme]. repeat split; [done|by rewrite Hme|].
  intros _ k _. by rewrite Hme.
Qed.

Lemma guards_set_filename n nk (l : loc) path :
  n ≤ l → respects (guards n nk) (set_filename l path).
Proof.
  intros Hl w r w'. unfold set_filename, get_model, get_meta, put_meta.
  rewrite bind_run. destruct (models w !! l) as [m|] eqn:Hm.
  2:{ inversion 1; subst. reflexivity. }
  rewrite bind_run. destruct (metas w !! meta m) as [t|] eqn:Ht.
  2:{ inversion 1; subst. reflexivity. }
  inversion 1; subst. repeat split; simpl.
  - apply length_insert.
  - intros Hinv k Hk. apply list_lookup_insert_ne.
    specialize (Hinv l m Hl Hm). lia.
Qed.

Ltac guards_prim :=
  first
    [ apply guards_set_filename; assumption
    | apply guards_quiet; intros ?; by split ].

Lemma map_m_view_ok ls w imgs w' :
  map_m view ls w = (Ok imgs, w') →
  w' = w ∧ Forall (λ l, l < length (models w)) ls.
Proof.
  revert imgs w'. induction ls as [|l ls IH]; intros imgs w' H; simpl in H.
  - apply mret_ok in H as [-> _]. split; [done|constructor].
  - apply bind_ok in H as (img & w1 & H1 & H).
    apply view_ok in H1 as [-> (m & t & Hm & _)].
    apply bind_ok in H as (rest & w1 & H1 & H).
    apply IH in H1 as [-> F]. apply mret_ok in H as [-> _].
    split; [done|]. constructor; [|done]. by eapply lookup_lt_Some.
Qed.

#[global] Instance files_same_preorder : PreOrder files_same.
Proof. split; [by intros w | intros a b d H1 H2; unfold files_same in *; congruence]. Qed.

Lemma files_quiet {A} (m : M A) :
  (∀ w, files (m w).2 = files w) → respects files_same m.
Proof.
  intros Hm w r w' E. specialize (Hm w). by rewrite E in Hm.
Qed.

Ltac files_prim :=
  first
    [ apply files_quiet; intros ?; reflexivity
    | progress autounfold with msetters ].

(** *** Runs that return *)

Section OkRespects.

Context (R : relation World) `{!PreOrder R}.

Lemma ok_respects_of {A} (m : M A) : respects R m → ok_respects R m.
Proof. intros Hm w a w' E. by eapply Hm. Qed.

Lemma ok_respects_bind {A B} (m : M A) (f : A → M B) :
  ok_respects R m → (∀ a, ok_respects R (f a)) → ok_respects R (m ≫= f).
Proof.
  intros Hm Hf w b w' E. apply bind_ok in E as (a & w1 & E1 & E2).
  transitivity w1; [eapply Hm | eapply Hf]; eauto.
Qed.

Lemma ok_respects_for_each {A} (xs : list A) (body : A → M unit) :
  (∀ x, x ∈ xs → ok_respects R (body x)) → ok_respects R (for_each xs body).
Proof.
  induction xs as [|x xs IH]; intros Hb; simpl.
  - apply ok_respects_of. by apply respects_ret.
  - apply ok_respects_bind.
    + apply Hb. left.
    + intros _. apply IH. intros y Hy. apply Hb. by right.
Qed.

Lemma ok_respects_raises {A B} (m : M A) (e : Exn) :
  ok_respects R (m;; (raise e : M B)).
Proof.
  intros w b w' E. apply bind_ok in E as (a & w1 & _ & E2). discriminate.
Qed.

End OkRespects.

(** *** Runs that stay inside a set of objects *)

#[global] Instance outside_preorder ls : PreOrder (outside ls).
Proof.
  split.
  - by intros w.
  - intros w1 w2 w3 [Ht1 H1] [Ht2 H2]. split; [congruence|].
    intros l Hl. by rewrite H2, H1.
Qed.

Lemma outside_quiet {A} ls (m : M A) :
  (∀ w, models (m w).2 = models w ∧ metas (m w).2 = metas w) →
  respects (outside ls) m.
Proof.
  intros Hm w r w' E. specialize (Hm w). rewrite E in Hm. simpl in Hm.
  destruct Hm as [Hmo Hme]. split; [done|]. intros l _. by rewrite Hmo.
Qed.

Lemma outside_updates ls l g m :
  l ∈ ls → updates l g m → respects (outside ls) m.
Proof.
  intros Hl Hu w r w' E. destruct (Hu w r w' E) as [->|(m0 & Hm0 & ->)].
  - reflexivity.
  - split; [done|]. intros l' Hl'. simpl. apply list_lookup_insert_ne.
    intros ->. by apply Hl'.
Qed.

Ltac outside_prim :=
  first
    [ eapply outside_updates; [ eassumption | apply set_dq_updates ]
    | apply outside_quiet; intros ?; by split ].

Lemma view_run (l : loc) m t w :
  models w !! l = Some m → metas w !! meta m = Some t →
  view l w = (Ok (mkImage (data m) (dq m) (wht m) t), w).
Proof.
  intros Hm Ht. unfold view, get_model, get_meta. rewrite bind_run, Hm.
  rewrite bind_run, Ht. reflexivity.
Qed.

Section ControllerFacts.

Variable c : Collaborators.

Lemma prepare_emits (P : Event → Prop) kw ins :
  (∀ e, is_median e = false → is_compare e = false → is_blot e = false → P e) →
  respects (emits P) (prepare c ins kw).
Proof. intros HP. unfold prepare. respects_with emits_prim. Qed.

Lemma retain_or_release_emits (P : Event → Prop) kw drz med :
  (∀ e, is_median e = false → is_compare e = false → is_blot e = false → P e) →
  respects (emits P) (retain_or_release c kw drz med).
Proof. intros HP. respects_with emits_prim. Qed.

Lemma detect_outliers_emits (P : Event → Prop) ins med v1 v2 v3 v4 :
  (∀ l, P (EvBlot l)) → (∀ l, P (EvCompare l)) → (∀ l e, P (EvReport l e)) →
  respects (emits P) (detect_outliers c ins med v1 v2 v3 v4).
Proof. intros. respects_with emits_prim. Qed.

Lemma compute_median_emits (P : Event → Prop) kw drz med :
  (∀ l, P (EvCreateMedianCalled l)) → P EvCreateMedianReturned →
  respects (emits P) (compute_median c kw drz med).
Proof. intros. respects_with emits_prim. Qed.

(** The stages of a run, up to the point where it ends. *)
Lemma body_split ins kw w r w' :
  do_detection_body c ins kw w = (r, w') →
  match prepare c ins kw w with
  | (Raise e, w1) => r = Raise e ∧ w' = w1
  | (Ok (drz, med), w1) =>
      match compute_median c kw drz med w1 with
      | (Raise e, w2) => r = Raise e ∧ w' = w2
      | (Ok _, w2) =>
          match retain_or_release c kw drz med w2 with
          | (Raise e, w3) => r = Raise e ∧ w' = w3
          | (Ok _, w3) =>
              match detect_outliers c ins med (snr kw) (scale kw) (backg kw)
                      (resample_data kw) w3 with
              | (Raise e, w4) => r = Raise e ∧ w' = w4
              | (Ok _, w4) => r = Ok (drz, med) ∧ w' = w4
              end
          end
      end
  end.
Proof.
  unfold do_detection_body, prepare. rewrite !bind_run.
  destruct (lift (convert_inputs c kw) w) as [[[]|e] w0]; [|by inversion 1].
  rewrite !bind_run.
  destruct (emit EvConvertInputs w0) as [[[]|e] w0']; [|by inversion 1].
  rewrite !bind_run.
  destruct (make_drizzled c kw ins w0') as [[drz|e] w1]; [|by inversion 1].
  rewrite !bind_run.
  destruct (init_median kw ins drz w1) as [[med|e] w2]; [|by inversion 1].
  simpl. rewrite !bind_run.
  destruct (compute_median c kw drz med w2) as [[[]|e] w3]; [|by inversion 1].
  rewrite !bind_run.
  destruct (retain_or_release c kw drz med w3) as [[[]|e] w4]; [|by inversion 1].
  rewrite !bind_run.
  destruct (detect_outliers c ins med _ _ _ _ w4) as [[[]|e] w5];
    by inversion 1.
Qed.

Lemma map_m_view_trace ls w r w' :
  map_m view ls w = (r, w') → trace w' = trace w.
Proof.
  intros H. apply emits_nothing.
  revert H. apply (respects_map_m (emits (λ _, False))).
  intros. respects_with emits_prim.
Qed.

Lemma set_data_trace l a w r w' :
  set_data l a w = (r, w') → trace w' = trace w.
Proof.
  intros H. apply emits_nothing. revert H.
  generalize w r w'. change (respects (emits (λ _, False)) (set_data l a)).
  respects_with emits_prim.
Qed.

Lemma compute_median_returned kw drz med w w' :
  compute_median c kw drz med w = (Ok tt, w') →
  trace w' = trace w ++ [EvCreateMedianCalled drz; EvCreateMedianReturned].
Proof.
  unfold compute_median. intros H.
  apply bind_ok in H as ([] & w1 & H1 & H). inversion H1; subst; clear H1.
  apply bind_ok in H as (stack & w2 & H2 & H). apply map_m_view_trace in H2.
  apply bind_ok in H as (a & w3 & H3 & H). inversion H3; subst; clear H3.
  apply bind_ok in H as ([] & w4 & H4 & H). inversion H4; subst; clear H4.
  apply set_data_trace in H. rewrite H. simpl. rewrite H2. simpl.
  by rewrite <- app_assoc.
Qed.

(** The events of a run fall in two parts: no comparison in the first,
    no median combination in the second, and the second is empty unless
    the median combination has returned in the first. *)
Lemma body_trace ins kw w r w' :
  do_detection_body c ins kw w = (r, w') →
  ∃ early late,
    trace w' = trace w ++ early ++ late
    ∧ Forall (λ e, is_compare e = false) early
    ∧ Forall (λ e, is_median e = false) late
    ∧ (late = [] ∨ EvCreateMedianReturned ∈ early).
Proof.
  intros H. apply body_split in H.
  destruct (prepare c ins kw w) as [[[drz med]|e] w1] eqn:E1.
  2:{ destruct H as [-> ->].
      apply (prepare_emits (λ e, is_compare e = false)) in E1 as (t & Et & Ft);
        [|auto].
      exists t, []. rewrite app_nil_r. auto. }
  apply (prepare_emits (λ e, is_compare e = false)) in E1 as (t1 & Et1 & Ft1);
    [|auto].
  destruct (compute_median c kw drz med w1) as [[[]|e] w2] eqn:E2.
  2:{ destruct H as [-> ->].
      apply (compute_median_emits (λ e, is_compare e = false)) in E2
        as (t2 & Et2 & Ft2); [|done..].
      exists (t1 ++ t2), []. rewrite app_nil_r, Et2, Et1, <- app_assoc.
      repeat split; auto. by apply Forall_app. }
  apply compute_median_returned in E2.
  destruct (retain_or_release c kw drz med w2) as [[[]|e] w3] eqn:E3.
  2:{ destruct H as [-> ->].
      apply (retain_or_release_emits (λ e, is_compare e = false)) in E3
        as (t3 & Et3 & Ft3); [|auto].
      exists ((t1 ++ [EvCreateMedianCalled drz; EvCreateMedianReturned]) ++ t3), [].
      rewrite app_nil_r, Et3, E2, Et1, <- !app_assoc.
      repeat split; auto.
      rewrite !Forall_app. repeat split; auto. }
  apply (retain_or_release_emits (λ e, is_compare e = false)) in E3
    as (t3 & Et3 & Ft3); [|auto].
  destruct (detect_outliers c ins med _ _ _ _ w3) as [ro w4] eqn:E4.
  apply (detect_outliers_emits (λ e, is_median e = false)) in E4
    as (t4 & Et4 & Ft4); [|done..].
  exists ((t1 ++ [EvCreateMedianCalled drz; EvCreateMedianReturned]) ++ t3), t4.
  assert (w' = w4) as -> by (destruct ro; tauto).
  rewrite Et4, Et3, E2, Et1, <- !app_assoc. repeat split; auto.
  - rewrite !Forall_app. repeat split; auto.
  - right. set_solver.
Qed.

Lemma do_detection_body_of ins kw w r w' :
  do_detection c ins kw w = (r, w') →
  ∃ r', do_detection_body c ins kw w = (r', w').
Proof.
  unfold do_detection. rewrite bind_run.
  destruct (do_detection_body c ins kw w) as [[a|e] w1]; inversion 1; eauto.
Qed.

(** C1: in every run of [do_detection], whenever the Outlier Comparator
    is invoked on an exposure, the call of [create_median] has already
    returned, and no median combination is started or finished
    afterwards. *)
Theorem median_completes_before_comparison ins kw w r w' pre l post :
  do_detection c ins kw w = (r, w') →
  trace w' = trace w ++ pre ++ EvCompare l :: post →
  EvCreateMedianReturned ∈ pre
  ∧ Forall (λ e, is_median e = false) (EvCompare l :: post).
Proof.
  intros H Ht. apply do_detection_body_of in H as [r' H].
  apply body_trace in H as (early & late & E & Fe & Fl & Hl).
  rewrite E in Ht. apply app_inv_head in Ht.
  apply split_after_prefix in Ht as (mid & -> & ->); [|done].
  destruct Hl as [Hl | Hl]; [by destruct mid|].
  split; [set_solver|].
  apply Forall_app in Fl as [_ Fl]. done.
Qed.

(** C8: on an empty exposure set, from which the resampler makes no mosaic,
    the run ends with an exception; no median model has been created, the
    median combination has not been called, and the store is as it was. *)
Theorem empty_exposure_set_is_fatal kw w r w' :
  (∀ ms, do_drizzle c kw [] = Ok ms → ms = []) →
  do_detection c [] kw w = (r, w') →
  (∃ e, r = Raise e)
  ∧ (∃ t, trace w' = trace w ++ t
          ∧ Forall (λ e, is_median e = false ∧ is_image_model e = false) t)
  ∧ models w' = models w ∧ metas w' = metas w.
Proof.
  intros Hdrz. unfold do_detection, do_detection_body, make_drizzled, resample.
  rewrite !bind_run. unfold lift at 1.
  destruct (convert_inputs c kw) as [[]|e].
  2:{ inversion 1; subst. split; [eauto|]. split; [|done].
      exists []. by rewrite app_nil_r. }
  rewrite !bind_run. cbn [emit]. rewrite !bind_run.
  destruct (is_True (resample_data kw)).
  - simpl map_m. rewrite !bind_run. cbn [mret M_ret].
    rewrite !bind_run. unfold lift at 1. cbn [trace models metas files].
    destruct (do_drizzle c kw []) as [ms|e] eqn:Ed.
    2:{ inversion 1; subst. split; [eauto|]. split; [|done].
        exists [EvConvertInputs]. split; [done|]. by repeat constructor. }
    rewrite (Hdrz ms eq_refl). simpl map_m. cbn [mret M_ret].
    rewrite !bind_run. cbn [emit mret M_ret trace models metas files].
    rewrite !bind_run.
    destruct (truthy (save_intermediate_results kw)); simpl;
      inversion 1; subst; (split; [eauto|]); (split; [|done]); simpl;
      exists [EvConvertInputs; EvDrizzle [] []]; rewrite <- app_assoc;
      (split; [done|]); by repeat constructor.
  - simpl. inversion 1; subst. split; [eauto|]. split; [|done]. simpl.
    exists [EvConvertInputs]. split; [done|]. by repeat constructor.
Qed.



Lemma compute_median_touches kw drz med :
  respects (touches (only_data_of med)) (compute_median c kw drz med).
Proof. respects_with touches_prim. Qed.

Lemma prepare_kept_dq ins kw : respects (kept dq) (prepare c ins kw).
Proof. unfold prepare. respects_with kept_prim. Qed.

Lemma prepare_ok ins kw w drz med w1 :
  prepare c ins kw w = (Ok (drz, med), w1) →
  ∃ w0, convert_inputs c kw = Ok tt
        ∧ make_drizzled c kw ins
            (mkWorld (models w) (metas w) (files w) (trace w ++ [EvConvertInputs]))
          = (Ok drz, w0)
        ∧ init_median kw ins drz w0 = (Ok med, w1).
Proof.
  unfold prepare. intros H.
  apply bind_ok in H as ([] & w2 & H1 & H). apply lift_ok in H1 as [-> Hc].
  apply bind_ok in H as ([] & w2 & H1 & H). inversion H1; subst; clear H1.
  apply bind_ok in H as (drz' & w2 & H1 & H).
  apply bind_ok in H as (med' & w3 & H2 & H).
  apply mret_ok in H as [-> E]. inversion E; subst. eauto.
Qed.




Lemma resample_ok kw ins w outs w1 :
  resample c kw ins w = (Ok outs, w1) →
  (∃ news nodes,
     models w1 = models w ++ news
     ∧ metas w1 = metas w ++ nodes
     ∧ Forall (λ m, length (metas w) ≤ meta m) news)
  ∧ trace w1 = trace w ++ [EvDrizzle ins outs]
  ∧ Forall (λ l, l < length (models w)) ins
  ∧ Forall (λ l, length (models w) ≤ l < length (models w1)) outs.
Proof.
  unfold resample. intros H.
  apply bind_ok in H as (imgs & w2 & H1 & H).
  apply map_m_view_ok in H1 as [-> Fins].
  apply bind_ok in H as (mos & w2 & H1 & H). apply lift_ok in H1 as [-> _].
  apply bind_ok in H as (outs' & w2 & H1 & H).
  apply map_m_alloc_mosaic_ok in H1 as [(news & nodes & Hm & Ht & Htr & F) Fo].
  apply bind_ok in H as ([] & w3 & H1 & H). inversion H1; subst; clear H1.
  apply mret_ok in H as [-> ->]. simpl. repeat split; eauto.
  by rewrite Htr.
Qed.

Lemma save_mosaics_guards n nk kw drz :
  Forall (λ l, n ≤ l) drz →
  respects (guards n nk)
    (for_each drz (λ model,
       base ← get_filename model;
       path ← lift (make_output_path kw base "_outlier_s2d.fits");
       set_filename model path;;
       log_info WritingResampled;;
       name ← get_filename model;
       save_model c model name)).
Proof.
  intros F. apply respects_for_each; [typeclasses eauto|].
  intros x Hx. assert (n ≤ x) by (by eapply Forall_forall in F).
  respects_with guards_prim.
Qed.

Lemma weights_touches kw ins :
  respects (touches (λ _, only_wht))
    (for_each (seq 0 (length ins)) (λ i,
       src ← index ins i;
       img ← view src;
       w ← lift (build_driz_weight c img (weight_type kw) (good_bits kw));
       emit (EvBuildWeight src);;
       dst ← index ins i;
       set_wht dst w)).
Proof. respects_with touches_prim. Qed.

Lemma weights_ok_valid kw ins n k w w' :
  for_each (seq k n) (λ i,
    src ← index ins i;
    img ← view src;
    a ← lift (build_driz_weight c img (weight_type kw) (good_bits kw));
    emit (EvBuildWeight src);;
    dst ← index ins i;
    set_wht dst a) w = (Ok tt, w') →
  ∀ i l, k ≤ i < k + n → ins !! i = Some l → l < length (models w).
Proof.
  revert k w. induction n as [|n IH]; intros k w H i l Hi Hl; [lia|].
  simpl in H. apply bind_ok in H as ([] & w1 & H1 & H).
  assert (length (models w1) = length (models w)) as Hlen.
  { assert (touches (λ _, only_wht) w w1) as (_ & Hlen & _); [|done].
    revert H1. generalize w (Ok tt : Result unit) w1.
    change (respects (touches (λ _, only_wht))
              (src ← index ins k;
               img ← view src;
               a ← lift (build_driz_weight c img (weight_type kw) (good_bits kw));
               emit (EvBuildWeight src);;
               dst ← index ins k;
               set_wht dst a)).
    respects_with touches_prim. }
  destruct (decide (i = k)) as [->|Hne].
  - apply bind_ok in H1 as (src & w2 & H2 & H1). apply index_ok in H2 as [-> Hs].
    apply bind_ok in H1 as (img & w2 & H2 & H1).
    apply view_ok in H2 as [-> (m & t & Hm & _)].
    assert (Some src = Some l) as E by (rewrite <- Hs; exact Hl).
    inversion E; subst. by eapply lookup_lt_Some.
  - rewrite <- Hlen. eapply (IH (S k)); [exact H| |exact Hl]. lia.
Qed.

(** One turn of the loop of lines 62-66, when it succeeds. *)
Lemma weight_turn_ok kw ins i w w1 :
  (src ← index ins i;
   img ← view src;
   a ← lift (build_driz_weight c img (weight_type kw) (good_bits kw));
   emit (EvBuildWeight src);;
   dst ← index ins i;
   set_wht dst a) w = (Ok tt, w1) →
  ∃ l m t a,
    ins !! i = Some l ∧ models w !! l = Some m ∧ metas w !! meta m = Some t
    ∧ build_driz_weight c (mkImage (data m) (dq m) (wht m) t)
        (weight_type kw) (good_bits kw) = Ok a
    ∧ models w1 = <[l := mkModel (data m) (dq m) a (meta m)]> (models w)
    ∧ metas w1 = metas w.
Proof.
  intros H.
  apply bind_ok in H as (src & w2 & H1 & H). apply index_ok in H1 as [-> Hs].
  apply bind_ok in H as (img & w2 & H1 & H).
  apply view_ok in H1 as [-> (m & t & Hm & Ht & ->)].
  apply bind_ok in H as (a & w2 & H1 & H). apply lift_ok in H1 as [-> Ha].
  apply bind_ok in H as ([] & w2 & H1 & H). inversion H1; subst; clear H1.
  apply bind_ok in H as (dst & w2 & H1 & H). apply index_ok in H1 as [-> Hd].
  rewrite Hs in Hd. inversion Hd; subst dst; clear Hd.
  apply set_wht_ok in H as (m' & Hm' & ->). cbn [models metas] in *.
  rewrite Hm in Hm'. inversion Hm'; subst m'.
  exists src, m, t, a. eauto 10.
Qed.




(** Lines 46-66, when they succeed. *)
Lemma make_drizzled_ok kw ins w drz w0 :
  make_drizzled c kw ins w = (Ok drz, w0) →
  Forall (λ l, l < length (models w0)) drz
  ∧ if is_True (resample_data kw)
    then (∃ news, models w0 = models w ++ news
                  ∧ Forall (λ m, length (metas w) ≤ meta m) news)
         ∧ Forall (λ l, length (models w) ≤ l) drz
         ∧ length (metas w) ≤ length (metas w0)
         ∧ (∀ k, k < length (metas w) → metas w0 !! k = metas w !! k)
    else drz = ins ∧ touches (λ _, only_wht) w w0.
Proof.
  unfold make_drizzled. destruct (is_True (resample_data kw)); intros H.
  - apply bind_ok in H as (outs & w1 & H1 & H).
    apply resample_ok in H1 as ((news & nodes & Hm & Ht & Fn) & _ & _ & Fo).
    apply bind_ok in H as ([] & w2 & H2 & H). apply mret_ok in H as [<- <-].
    assert (guards (length (models w)) (length (metas w)) w1 w0)
      as (Hmo & Hlen & Hk).
    { destruct (truthy (save_intermediate_results kw)).
      - eapply save_mosaics_guards; [|exact H2].
        eapply Forall_impl; [exact Fo|]. simpl. lia.
      - apply mret_ok in H2 as [-> _]. reflexivity. }
    split; [|split; [|split; [|split]]].
    + rewrite Hmo. eapply Forall_impl; [exact Fo|]. simpl. lia.
    + exists news. by rewrite Hmo.
    + eapply Forall_impl; [exact Fo|]. simpl. lia.
    + rewrite Hlen, Ht, length_app. lia.
    + intros k Hk'. rewrite Hk; [| |done].
      * rewrite Ht. by apply lookup_app_l.
      * intros l m Hl Hlm. rewrite Hm in Hlm.
        rewrite lookup_app_r in Hlm by lia.
        eapply Forall_lookup_1 in Fn; [|exact Hlm]. done.
  - apply bind_ok in H as ([] & w1 & H1 & H). apply mret_ok in H as [<- <-].
    pose proof (weights_touches _ _ _ _ _ H1) as T.
    split; [|by split].
    destruct T as (_ & Hlen & _). rewrite Hlen.
    apply Forall_lookup_2. intros i l Hl.
    eapply weights_ok_valid; [exact H1| |exact Hl].
    apply lookup_lt_Some in Hl. lia.
Qed.



(** A run either ends before the median combination, or gets there and
    goes on from the world the preparation left. *)
Lemma body_cases ins kw w r w' :
  do_detection_body c ins kw w = (r, w') →
  (∃ e, prepare c ins kw w = (Raise e, w') ∧ r = Raise e)
  ∨ (∃ drz med w1, prepare c ins kw w = (Ok (drz, med), w1)
                   ∧ finish c ins kw drz med w1 = (r, w')).
Proof.
  unfold do_detection_body, prepare, finish. rewrite !bind_run.
  destruct (lift (convert_inputs c kw) w) as [[[]|e] w0];
    [|inversion 1; subst; eauto].
  rewrite !bind_run.
  destruct (emit EvConvertInputs w0) as [[[]|e] w0'];
    [|inversion 1; subst; eauto].
  rewrite !bind_run.
  destruct (make_drizzled c kw ins w0') as [[drz|e] w1];
    [|inversion 1; subst; eauto].
  rewrite !bind_run.
  destruct (init_median kw ins drz w1) as [[med|e] w2];
    [|inversion 1; subst; eauto].
  simpl. intros H. right. eauto.
Qed.


Lemma prepare_emits_no_save (P : Event → Prop) ins kw :
  is_True (resample_data kw) && truthy (save_intermediate_results kw) = false →
  (∀ e, (∀ l p, e ≠ EvSave l p) → (∀ l p, e ≠ EvSaveFailed l p) → P e) →
  respects (emits P) (prepare c ins kw).
Proof.
  intros Hf HP. unfold prepare, make_drizzled.
  destruct (is_True (resample_data kw)),
           (truthy (save_intermediate_results kw)); try discriminate;
    respects_with ltac:(first [ apply emits_emit; apply HP; by intros
                              | emits_prim ]).
Qed.


Lemma finish_ok_result ins kw drz med w1 a b w' :
  finish c ins kw drz med w1 = (Ok (a, b), w') → a = drz ∧ b = med.
Proof.
  unfold finish. intros H.
  apply bind_ok in H as ([] & w2 & _ & H).
  apply bind_ok in H as ([] & w3 & _ & H).
  apply bind_ok in H as ([] & w4 & _ & H).
  apply mret_ok in H as [_ E]. by inversion E.
Qed.



Lemma detect_outliers_files ins med v1 v2 v3 v4 :
  respects files_same (detect_outliers c ins med v1 v2 v3 v4).
Proof. respects_with files_prim. Qed.

(** The loop of lines 88-90, when it is through: every entry has been
    passed to [_remove_file] and is no longer held. *)
Lemma remove_files_ok drz w w' :
  for_each drz (λ fn, _remove_file c fn;; log_info (RemovingFile fn)) w
    = (Ok tt, w') →
  (∀ l, l ∈ drz → l ∉ files w')
  ∧ files w' ⊆ files w
  ∧ ∃ t, trace w' = trace w ++ t
         ∧ (∀ l, l ∈ drz → EvRemoveFile l ∈ t)
         ∧ Forall (λ e, is_compare e = false) t.
Proof.
  revert w. induction drz as [|x drz IH]; intros w H; simpl in H.
  - apply mret_ok in H as [-> _]. split; [intros l Hl; by inversion Hl|].
    split; [done|]. exists []. rewrite app_nil_r. split; [done|].
    split; [intros l Hl; by inversion Hl|constructor].
  - apply bind_ok in H as ([] & w1 & H1 & H).
    apply IH in H as (Hrel & Hsub & t & Et & Hin & Ft).
    unfold _remove_file in H1.
    apply bind_ok in H1 as ([] & w2 & H2 & H1).
    apply bind_ok in H2 as ([] & w3 & H3 & H2). apply lift_ok in H3 as [-> _].
    apply bind_ok in H2 as ([] & w3 & H3 & H2). inversion H3; subst; clear H3.
    inversion H2; subst; clear H2. inversion H1; subst; clear H1.
    cbn [files trace] in *.
    split; [|split].
    + intros l Hl. apply elem_of_cons in Hl as [->|Hl]; [|by apply Hrel].
      intros Hx. apply Hsub in Hx. set_solver.
    + set_solver.
    + exists ([EvRemoveFile x; EvLog (RemovingFile x)] ++ t).
      split; [by rewrite Et, <- !app_assoc|]. split.
      * intros l Hl. apply elem_of_cons in Hl as [->|Hl]; [set_solver|].
        specialize (Hin l Hl). set_solver.
      * by repeat constructor.
Qed.

Lemma body_ok ins kw w drz med w' :
  do_detection_body c ins kw w = (Ok (drz, med), w') →
  ∃ w1 w2 w3,
    prepare c ins kw w = (Ok (drz, med), w1)
    ∧ compute_median c kw drz med w1 = (Ok tt, w2)
    ∧ retain_or_release c kw drz med w2 = (Ok tt, w3)
    ∧ detect_outliers c ins med (snr kw) (scale kw) (backg kw)
        (resample_data kw) w3 = (Ok tt, w').
Proof.
  intros H.
  apply body_cases in H as [(e & _ & He) | (drz' & med' & w1 & Hp & Hf)];
    [discriminate|].
  pose proof (finish_ok_result _ _ _ _ _ _ _ _ Hf) as [-> ->].
  unfold finish in Hf.
  apply bind_ok in Hf as ([] & w2 & H2 & Hf).
  apply bind_ok in Hf as ([] & w3 & H3 & Hf).
  apply bind_ok in Hf as ([] & w4 & H4 & Hf).
  apply mret_ok in Hf as [-> _]. eauto 10.
Qed.

(** C5, as amended: when intermediate results are neither saved nor kept in
    memory and the run returns, every entry of the mosaic stack has been
    passed to [_remove_file] and is no longer held; the removal comes after
    the median combination has returned and before any comparison. *)
Theorem mosaics_released_after_median ins kw w drz med w' l :
  truthy (save_intermediate_results kw) = false →
  truthy (in_memory kw) = false →
  do_detection_body c ins kw w = (Ok (drz, med), w') →
  l ∈ drz →
  (l ∉ files w')
  ∧ ∃ pre post,
      trace w' = trace w ++ pre ++ EvRemoveFile l :: post
      ∧ EvCreateMedianReturned ∈ pre
      ∧ Forall (λ e, is_compare e = false) pre.
Proof.
  intros Hsv Him H Hl.
  apply body_ok in H as (w1 & w2 & w3 & Hp & H2 & H3 & H4).
  apply (prepare_emits (λ e, is_compare e = false)) in Hp as (t1 & Et1 & F1);
    [|auto].
  apply compute_median_returned in H2.
  unfold retain_or_release in H3. rewrite Hsv, Him in H3. simpl in H3.
  apply remove_files_ok in H3 as (Hrel & _ & t3 & Et3 & Hin & F3).
  pose proof (detect_outliers_files _ _ _ _ _ _ _ _ _ H4) as Hfiles.
  apply (detect_outliers_emits (λ _, True)) in H4 as (t4 & Et4 & _); [|done..].
  split; [rewrite Hfiles; by apply Hrel|].
  specialize (Hin l Hl). apply list_elem_of_split in Hin as (a & b & ->).
  exists (t1 ++ [EvCreateMedianCalled drz; EvCreateMedianReturned] ++ a), (b ++ t4).
  split; [|split].
  - rewrite Et4, Et3, H2, Et1, <- !app_assoc. simpl. done.
  - set_solver.
  - apply Forall_app in F3 as [Fa _].
    rewrite !Forall_app. repeat split; auto.
Qed.

(** A [save] that has failed does not return. *)
Lemma save_model_ok_emits (P : Event → Prop) l path :
  (∀ p, P (EvSave l p)) → ok_respects (emits P) (save_model c l path).
Proof.
  intros HP. unfold save_model. apply ok_respects_bind; [typeclasses eauto| |].
  - apply ok_respects_of. respects_with emits_prim.
  - intros img. destruct (save c img path).
    + apply ok_respects_of. by apply emits_emit.
    + apply ok_respects_raises.
Qed.

Lemma prepare_ok_emits ins kw :
  ok_respects (emits (λ e, is_save_failed e = false)) (prepare c ins kw).
Proof.
  unfold prepare, make_drizzled.
  repeat first
    [ match goal with |- PreOrder _ => typeclasses eauto end
    | apply save_model_ok_emits; done
    | apply ok_respects_bind; [ | | intros ? ]
    | apply ok_respects_for_each; [ | intros ? ? ]
    | match goal with
      | |- ok_respects _ (if ?b then _ else _) => destruct b
      | |- ok_respects _ (let _ := _ in _) => cbv zeta
      end
    | apply ok_respects_of; respects_with emits_prim ].
Qed.

Lemma retain_or_release_ok_emits kw drz med :
  ok_respects (emits (λ e, is_save_failed e = false))
    (retain_or_release c kw drz med).
Proof.
  unfold retain_or_release.
  repeat first
    [ match goal with |- PreOrder _ => typeclasses eauto end
    | apply save_model_ok_emits; done
    | apply ok_respects_bind; [ | | intros ? ]
    | match goal with
      | |- ok_respects _ (if ?b then _ else _) => destruct b
      end
    | apply ok_respects_of; respects_with emits_prim ].
Qed.

Lemma compute_median_kept_dq kw drz med :
  respects (kept dq) (compute_median c kw drz med).
Proof. respects_with kept_prim. Qed.

Lemma retain_or_release_kept_dq kw drz med :
  respects (kept dq) (retain_or_release c kw drz med).
Proof. respects_with kept_prim. Qed.

(** C6, as amended: a failure while writing an intermediate product is not
    recovered.  If a write has failed during a run, the run has ended with
    an exception, the comparator has not been invoked on any exposure, and
    every quality-flag array is as it was. *)
Theorem write_failure_ends_the_run ins kw w r w' t l p :
  do_detection c ins kw w = (r, w') →
  trace w' = trace w ++ t →
  EvSaveFailed l p ∈ t →
  (∃ e, r = Raise e)
  ∧ Forall (λ e, is_compare e = false) t
  ∧ kept dq w w'.
Proof.
  intros H Ht Hfail.
  assert (∃ r', do_detection_body c ins kw w = (r', w')
                ∧ ((∃ e, r' = Raise e) → ∃ e, r = Raise e)) as (r' & Hb & Hr).
  { revert H. unfold do_detection. rewrite bind_run.
    destruct (do_detection_body c ins kw w) as [[a|e] w1]; inversion 1; subst;
      eexists; split; eauto. intros [e [=]]. }
  clear H. apply body_split in Hb.
  destruct (prepare c ins kw w) as [[[drz med]|e] w1] eqn:E1.
  2:{ destruct Hb as [-> ->]. split; [eauto|].
      split; [|by eapply prepare_kept_dq].
      apply (prepare_emits (λ e, is_compare e = false)) in E1 as (t1 & Et1 & F1);
        [|auto].
      rewrite Et1 in Ht. by apply app_inv_head in Ht as <-. }
  pose proof (prepare_ok_emits _ _ _ _ _ E1) as (s1 & Es1 & G1).
  pose proof (prepare_kept_dq _ _ _ _ _ E1) as K1.
  apply (prepare_emits (λ e, is_compare e = false)) in E1 as (t1 & Et1 & F1);
    [|auto].
  rewrite Et1 in Es1. apply app_inv_head in Es1 as <-.
  destruct (compute_median c kw drz med w1) as [r2 w2] eqn:E2.
  pose proof (compute_median_kept_dq _ _ _ _ _ _ E2) as K2.
  apply (compute_median_emits
           (λ e, is_compare e = false ∧ is_save_failed e = false)) in E2
    as (t2 & Et2 & F2); [|done..].
  destruct r2 as [[]|e].
  2:{ destruct Hb as [-> ->]. rewrite Et2, Et1, <- app_assoc in Ht.
      apply app_inv_head in Ht as <-.
      apply elem_of_app in Hfail as [Hfail|Hfail].
      - eapply Forall_forall in G1; [|exact Hfail]. discriminate.
      - eapply Forall_forall in F2; [|exact Hfail]. by destruct F2. }
  destruct (retain_or_release c kw drz med w2) as [r3 w3] eqn:E3.
  pose proof (retain_or_release_kept_dq _ _ _ _ _ _ E3) as K3.
  destruct r3 as [[]|e].
  - exfalso.
    apply retain_or_release_ok_emits in E3 as (t3 & Et3 & F3).
    destruct (detect_outliers c ins med _ _ _ _ w3) as [r4 w4] eqn:E4.
    apply (detect_outliers_emits (λ e, is_save_failed e = false)) in E4
      as (t4 & Et4 & F4); [|done..].
    assert (w' = w4) as -> by (destruct r4; tauto).
    rewrite Et4, Et3, Et2, Et1, <- !app_assoc in Ht.
    apply app_inv_head in Ht as <-.
    rewrite !elem_of_app in Hfail.
    destruct Hfail as [Hfail|[Hfail|[Hfail|Hfail]]].
    + eapply Forall_forall in G1; [|exact Hfail]. discriminate.
    + eapply Forall_forall in F2; [|exact Hfail]. by destruct F2.
    + eapply Forall_forall in F3; [|exact Hfail]. discriminate.
    + eapply Forall_forall in F4; [|exact Hfail]. discriminate.
  - destruct Hb as [-> ->]. split; [eauto|].
    split; [|by do 2 (etrans; [eassumption|])].
    apply (retain_or_release_emits (λ e, is_compare e = false)) in E3
      as (t3 & Et3 & F3); [|auto].
    rewrite Et3, Et2, Et1, <- !app_assoc in Ht. apply app_inv_head in Ht as <-.
    rewrite !Forall_app. repeat split; auto.
    eapply Forall_impl; [exact F2|]. by intros ? [? ?].
Qed.

Lemma detect_one_outside ls med v1 v2 v3 v4 x :
  x ∈ ls →
  respects (outside ls)
    (attempt (detect_one c med v1 v2 v3 v4 x) (λ e, emit (EvReport x e))).
Proof. intros Hx. respects_with outside_prim. Qed.

Lemma detect_outliers_outside ins med v1 v2 v3 v4 :
  respects (outside ins) (detect_outliers c ins med v1 v2 v3 v4).
Proof.
  unfold detect_outliers. apply respects_for_each; [typeclasses eauto|].
  intros x Hx. by apply detect_one_outside.
Qed.

(** Step 7 for one exposure never raises: either the mask is written into
    the quality flags, or the exception is reported and the store is as it
    was. *)
Lemma detect_one_step med v1 v2 v3 v4 x m t mm mt w r w1 :
  models w !! x = Some m → metas w !! meta m = Some t →
  models w !! med = Some mm → metas w !! meta mm = Some mt →
  attempt (detect_one c med v1 v2 v3 v4 x) (λ e, emit (EvReport x e)) w
    = (r, w1) →
  r = Ok tt
  ∧ ∃ tr, trace w1 = trace w ++ tr
    ∧ match exposure_outcome c (mkImage (data mm) (dq mm) (wht mm) mt)
              (mkImage (data m) (dq m) (wht m) t) v1 v2 v3 v4 with
      | Ok mask =>
          models w1
          = <[x := mkModel (data m) (write_mask (outlier_flag c) (dq m) mask)
                           (wht m) (meta m)]> (models w)
      | Raise e => models w1 = models w ∧ EvReport x e ∈ tr
      end.
Proof.
  intros Hm Ht Hmm Hmt. unfold attempt, detect_one, exposure_outcome.
  rewrite bind_run, (view_run _ _ _ _ Hm Ht).
  rewrite bind_run, (view_run _ _ _ _ Hmm Hmt).
  unfold native_reference. cbn [im_data im_dq].
  destruct (negb (truthy v4) && bool_decide (shape (data mm) = shape (data m))).
  - repeat first [rewrite bind_run | progress cbn [mret M_ret emit lift]].
    destruct (compare c (data m) (data mm) v1 v2 v3 v4) as [mask|e].
    + unfold set_dq, get_model, put_model. rewrite bind_run.
      cbn [models metas files trace]. rewrite Hm.
      inversion 1; subst. split; [done|]. eexists. split; [reflexivity|done].
    + inversion 1; subst. split; [done|]. cbn [trace models].
      exists [EvCompare x; EvReport x e]. rewrite <- app_assoc.
      split; [done|]. split; [done|]. set_solver.
  - repeat first [rewrite bind_run | progress cbn [mret M_ret emit lift]].
    destruct (blot c _ _) as [nref|e].
    + repeat first [rewrite bind_run | progress cbn [mret M_ret emit lift]].
      destruct (compare c (data m) nref v1 v2 v3 v4) as [mask|e].
      * unfold set_dq, get_model, put_model. rewrite bind_run.
        cbn [models metas files trace]. rewrite Hm.
        inversion 1; subst. split; [done|]. eexists. split; [|done].
        cbn [trace]. rewrite <- app_assoc. reflexivity.
      * inversion 1; subst. split; [done|]. cbn [trace models].
        exists [EvBlot x; EvCompare x; EvReport x e]. rewrite <- !app_assoc.
        split; [done|]. split; [done|]. set_solver.
    + inversion 1; subst. split; [done|]. cbn [trace models].
      exists [EvBlot x; EvReport x e]. rewrite <- !app_assoc.
      split; [done|]. split; [done|]. set_solver.
Qed.

Lemma detect_outliers_returns ins med v1 v2 v3 v4 w r w' :
  detect_outliers c ins med v1 v2 v3 v4 w = (r, w') → r = Ok tt.
Proof.
  unfold detect_outliers. revert w.
  induction ins as [|x rest IH]; intros w H; simpl in H.
  - by inversion H.
  - rewrite bind_run in H. unfold attempt at 1 in H.
    destruct (detect_one c med v1 v2 v3 v4 x w) as [[[]|e] w1].
    + by eapply IH.
    + cbn [emit] in H. by eapply IH.
Qed.

Lemma detect_outliers_each ins med v1 v2 v3 v4 mm mt :
  ∀ w r w',
    NoDup ins → med ∉ ins →
    models w !! med = Some mm → metas w !! meta mm = Some mt →
    detect_outliers c ins med v1 v2 v3 v4 w = (r, w') →
    ∃ t, trace w' = trace w ++ t
      ∧ ∀ l m tm, l ∈ ins → models w !! l = Some m →
          metas w !! meta m = Some tm →
          match exposure_outcome c (mkImage (data mm) (dq mm) (wht mm) mt)
                  (mkImage (data m) (dq m) (wht m) tm) v1 v2 v3 v4 with
          | Ok mask =>
              models w' !! l
              = Some (mkModel (data m)
                              (write_mask (outlier_flag c) (dq m) mask)
                              (wht m) (meta m))
          | Raise e => models w' !! l = Some m ∧ EvReport l e ∈ t
          end.
Proof.
  induction ins as [|x rest IH]; intros w r w' Hnd Hmed Hmm Hmt H.
  - inversion H; subst. exists []. rewrite app_nil_r. split; [done|].
    intros l m tm Hl. by inversion Hl.
  - apply NoDup_cons in Hnd as [Hx Hnd].
    apply not_elem_of_cons in Hmed as [Hne Hmed].
    change (detect_outliers c (x :: rest) med v1 v2 v3 v4)
      with (attempt (detect_one c med v1 v2 v3 v4 x) (λ e, emit (EvReport x e));;
            detect_outliers c rest med v1 v2 v3 v4) in H.
    rewrite bind_run in H.
    destruct (attempt (detect_one c med v1 v2 v3 v4 x)
                (λ e, emit (EvReport x e)) w) as [r1 w1] eqn:E1.
    pose proof (detect_one_outside [x] med v1 v2 v3 v4 x
                  (list_elem_of_here _ _) _ _ _ E1) as [Hme1 Hout1].
    assert (r1 = Ok tt ∧ ∃ t1, trace w1 = trace w ++ t1) as [-> [t1 Et1]].
    { revert E1. unfold attempt.
      destruct (detect_one c med v1 v2 v3 v4 x w) as [[[]|e] w0] eqn:E0;
        inversion 1; subst.
      - split; [done|].
        assert (emits (λ _, True) w w1) as (t1 & Et1 & _); [|eauto].
        revert E0. generalize w (Ok tt : Result unit) w1.
        change (respects (emits (λ _, True)) (detect_one c med v1 v2 v3 v4 x)).
        respects_with emits_prim.
      - split; [done|].
        assert (emits (λ _, True) w w0) as (t1 & Et1 & _).
        { revert E0. generalize w (Raise e : Result unit) w0.
          change (respects (emits (λ _, True)) (detect_one c med v1 v2 v3 v4 x)).
          respects_with emits_prim. }
        exists (t1 ++ [EvReport x e]). cbn [trace]. by rewrite Et1, <- app_assoc. }
    assert (models w1 !! med = Some mm) as Hmm1.
    { rewrite Hout1; [done|]. by intros ->%list_elem_of_singleton. }
    assert (metas w1 !! meta mm = Some mt) as Hmt1 by (by rewrite Hme1).
    pose proof (detect_outliers_outside rest med v1 v2 v3 v4 _ _ _ H)
      as [Hme2 Hout2].
    destruct (IH _ _ _ Hnd Hmed Hmm1 Hmt1 H) as (t2 & Et2 & Hrest).
    exists (t1 ++ t2). split; [by rewrite Et2, Et1, <- app_assoc|].
    intros l m tm Hl Hm Htm. apply elem_of_cons in Hl as [->|Hl].
    + destruct (detect_one_step _ _ _ _ _ _ _ _ _ _ _ _ _ Hm Htm Hmm Hmt E1)
        as (_ & tr & Etr & Hout).
      rewrite Et1 in Etr. apply app_inv_head in Etr as <-.
      destruct (exposure_outcome c _ _ v1 v2 v3 v4) as [mask|e].
      * rewrite Hout2, Hout by done.
        apply list_lookup_insert_eq. by eapply lookup_lt_Some.
      * destruct Hout as [Hmo Hrep]. rewrite Hout2, Hmo by done.
        split; [done|]. set_solver.
    + assert (l ≠ x) as Hlx by (by intros ->).
      assert (models w1 !! l = Some m) as Hm1.
      { rewrite Hout1; [done|]. by intros ->%list_elem_of_singleton. }
      assert (metas w1 !! meta m = Some tm) as Htm1 by (by rewrite Hme1).
      specialize (Hrest l m tm Hl Hm1 Htm1).
      destruct (exposure_outcome c _ _ v1 v2 v3 v4) as [mask|e]; [done|].
      destruct Hrest as [? Hrep]. split; [done|]. set_solver.
Qed.

(** C7: once the reference image exists, [detect_outliers] never raises;
    an exposure for which projecting or comparing fails is left as it was
    and the exception is reported for it, while every exposure for which
    they succeed receives its outlier mask. *)
Theorem exposure_failure_is_contained ins med v1 v2 v3 v4 mm mt w r w' t :
  NoDup ins → med ∉ ins →
  models w !! med = Some mm → metas w !! meta mm = Some mt →
  detect_outliers c ins med v1 v2 v3 v4 w = (r, w') →
  trace w' = trace w ++ t →
  r = Ok tt
  ∧ ∀ l m tm, l ∈ ins → models w !! l = Some m →
      metas w !! meta m = Some tm →
      match exposure_outcome c (mkImage (data mm) (dq mm) (wht mm) mt)
              (mkImage (data m) (dq m) (wht m) tm) v1 v2 v3 v4 with
      | Ok mask =>
          models w' !! l
          = Some (mkModel (data m) (write_mask (outlier_flag c) (dq m) mask)
                          (wht m) (meta m))
      | Raise e => models w' !! l = Some m ∧ EvReport l e ∈ t
      end.
Proof.
  intros Hnd Hmed Hmm Hmt H Ht. split; [by eapply detect_outliers_returns|].
  destruct (detect_outliers_each _ _ _ _ _ _ _ _ _ _ _ Hnd Hmed Hmm Hmt H)
    as (t' & Et' & Hall).
  rewrite Et' in Ht. by apply app_inv_head in Ht as <-.
Qed.

(** *** Without resampling *)

Lemma view_pure (l : loc) w : (view l w).2 = w.
Proof.
  unfold view, get_model, get_meta. rewrite bind_run.
  destruct (models w !! l) as [m|]; [|done].
  rewrite bind_run. by destruct (metas w !! meta m).
Qed.





(** Reading the stack depends on the store only. *)
Lemma map_m_view_store ls w stack w0 w2 :
  map_m view ls w = (Ok stack, w0) →
  models w2 = models w → metas w2 = metas w →
  map_m view ls w2 = (Ok stack, w2).
Proof.
  intros H Hmo Hme. pose proof (map_m_view_ok _ _ _ _ H) as [-> _].
  revert stack H.
  induction ls as [|l ls IH]; intros stack H; simpl in *.
  - apply mret_ok in H as [_ ->]. done.
  - apply bind_ok in H as (img & w1 & H1 & H).
    apply view_ok in H1 as [-> (m & t & Hm & Ht & ->)].
    apply bind_ok in H as (imgs & w1 & H1 & H).
    pose proof (map_m_view_ok _ _ _ _ H1) as [-> _].
    apply mret_ok in H as [_ ->].
    rewrite bind_run, (view_run l m t) by congruence.
    rewrite bind_run, (IH _ H1). done.
Qed.





End ControllerFacts.

(** ** The Median Combiner and the Outlier Comparator *)

Lemma pixel_imap {A B} (f : nat → nat → A → B) (a : list (list A)) (i j : nat) :
  pixel (imap (λ i row, imap (λ j x, f i j x) row) a) i j = f i j <$> pixel a i j.
Proof.
  unfold pixel. rewrite list_lookup_imap.
  destruct (a !! i) as [row|]; simpl; [|done]. by rewrite list_lookup_imap.
Qed.

Lemma included_no_weight (threshold : Q) (s : flux * Q) :
  (snd s == 0)%Q → included threshold s = false.
Proof.
  intros Hz. unfold included, Qlt_bool.
  assert (Qle_bool (snd s) 0 = true) as ->; [|done].
  apply Qle_bool_iff. rewrite Hz. apply Qle_refl.
Qed.

Lemma samples_at_no_weight (stack : list Image) (i j : nat) :
  (∀ im v, im ∈ stack → pixel (im_wht im) i j = Some v →
           (weight_value v == 0)%Q) →
  Forall (λ s, (snd s == 0)%Q) (samples_at stack i j).
Proof.
  intros Hz. apply Forall_forall. intros [v q] Hs.
  unfold samples_at in Hs. apply list_elem_of_omap in Hs as (im & Him & Hf).
  destruct (pixel (im_data im) i j) as [d|]; simpl in Hf; [|done].
  destruct (pixel (im_wht im) i j) as [wv|] eqn:Hw; simpl in Hf; [|done].
  inversion Hf; subst. simpl. by eapply Hz.
Qed.

Lemma combine_pixel_no_weight (ref_weight : list Q → Q) (maskpt : Q)
    (samples : list (flux * Q)) :
  Forall (λ s, (snd s == 0)%Q) samples →
  combine_pixel ref_weight maskpt samples = NonFinite.
Proof.
  intros Hz. unfold combine_pixel.
  assert (filter (λ s, included (maskpt * ref_weight (map snd samples)) s = true)
            samples = []) as ->; [|done].
  generalize (maskpt * ref_weight (map snd samples))%Q. intros thr.
  induction Hz as [|s rest Hs _ IH]; [done|].
  rewrite filter_cons_False; [done|]. by rewrite included_no_weight.
Qed.

Lemma compare_arrays_skips noise_sigma secondary_test (data nref : Array)
    (t s : Q * Q) (background : Q) (used : bool) (i j : nat) :
  (∀ r, pixel nref i j ≠ Some (Finite r)) →
  pixel (compare_arrays noise_sigma secondary_test data nref t s background used)
        i j ≠ Some true.
Proof.
  intros Hn. unfold compare_arrays.
  rewrite (pixel_imap (λ i j d, compare_pixel noise_sigma secondary_test data nref
                                  t s background i j d)).
  destruct (pixel data i j) as [d|]; simpl; [|done].
  unfold compare_pixel. destruct (pixel nref i j) as [[r|]|] eqn:E; try done.
  by destruct (Hn r).
Qed.

Lemma combine_ok (ref_weight : list Q → Q) (stack : list Image) (maskpt : Q)
    (reference : Array) :
  combine ref_weight stack maskpt = Ok reference →
  ∃ first rest,
    stack = first :: rest
    ∧ reference
      = imap (λ i row,
                imap (λ j _, combine_pixel ref_weight maskpt (samples_at stack i j))
                     row)
             (im_data first).
Proof.
  unfold combine. destruct stack as [|first rest]; [done|].
  intros H. injection H as <-. eauto.
Qed.


(** C9: at a position where every member of the mosaic stack has zero
    weight, the combined reference image is non-finite, and the comparator
    flags that position in no exposure, whether it is given the reference
    image itself or any native reference that is non-finite there. *)
Theorem no_weight_position_is_never_flagged
    (ref_weight : list Q → Q) (noise_sigma : Q → Q * Q → Q)
    (secondary_test : Array → Array → Q → Q * Q → Q → nat → nat → bool)
    (stack : list Image) (maskpt : Q) (reference : Array) (i j : nat) :
  (∀ im v, im ∈ stack → pixel (im_wht im) i j = Some v →
           (weight_value v == 0)%Q) →
  combine ref_weight stack maskpt = Ok reference →
  (∀ v, pixel reference i j = Some v → v = NonFinite)
  ∧ (∀ first rest, stack = first :: rest →
       is_Some (pixel (im_data first) i j) →
       pixel reference i j = Some NonFinite)
  ∧ (∀ data t s background used,
       pixel (compare_arrays noise_sigma secondary_test data reference
                t s background used) i j ≠ Some true)
  ∧ (∀ data nref t s background used,
       pixel nref i j = Some NonFinite →
       pixel (compare_arrays noise_sigma secondary_test data nref
                t s background used) i j ≠ Some true).
Proof.
  intros Hz Hc. apply combine_ok in Hc as (first & rest & Es & Hr).
  assert (∀ v, pixel reference i j = Some v → v = NonFinite) as Hnf.
  { intros v. rewrite Hr.
    rewrite (pixel_imap (λ i j _, combine_pixel ref_weight maskpt
                                    (samples_at stack i j))).
    destruct (pixel (im_data first) i j); simpl; [|done].
    intros [= <-]. apply combine_pixel_no_weight. by apply samples_at_no_weight. }
  split; [exact Hnf|]. split; [|split].
  - intros first' rest' E [v Hv]. rewrite Es in E.
    inversion E; subst first' rest'. rewrite Hr.
    rewrite (pixel_imap (λ i j _, combine_pixel ref_weight maskpt
                                    (samples_at stack i j))).
    rewrite Hv. simpl. f_equal.
    apply combine_pixel_no_weight. by apply samples_at_no_weight.
  - intros data t s background used. apply compare_arrays_skips.
    intros r Hp. by specialize (Hnf _ Hp).
  - intros data nref t s background used Hn. apply compare_arrays_skips.
    intros r. by rewrite Hn.
Qed.

Lemma no_weight_position_is_never_flagged_witness :
  (∀ v, pixel [[Finite (22 # 2); NonFinite]] 0 1 = Some v → v = NonFinite)
  ∧ (∀ first rest, ex_stack = first :: rest →
       is_Some (pixel (im_data first) 0 1) →
       pixel [[Finite (22 # 2); NonFinite]] 0 1 = Some NonFinite)
  ∧ (∀ data t s background used,
       pixel (compare_arrays ex_sigma ex_secondary data
                [[Finite (22 # 2); NonFinite]] t s background used) 0 1
       ≠ Some true)
  ∧ (∀ data nref t s background used,
       pixel nref 0 1 = Some NonFinite →
       pixel (compare_arrays ex_sigma ex_secondary data nref
                t s background used) 0 1 ≠ Some true).
Proof.
  apply (no_weight_position_is_never_flagged median_nonzero ex_sigma
           ex_secondary ex_stack 0.3).
  - intros im v Him Hv. unfold ex_stack in Him.
    apply elem_of_cons in Him as [->|Him];
      [|apply elem_of_cons in Him as [->|Him]; [|by inversion Him]];
      vm_compute in Hv; inversion Hv; reflexivity.
  - vm_compute. reflexivity.
Defined.

Lemma median_completes_before_comparison_witness :
  EvCreateMedianReturned
    ∈ [EvConvertInputs; EvBuildWeight 0; EvBuildWeight 1; EvBuildWeight 2;
       EvBuildWeight 3; EvImageModel 4 (1, 2);
       EvCreateMedianCalled [0; 1; 2; 3]; EvCreateMedianReturned;
       EvRemoveFile 0; EvLog (RemovingFile 0); EvRemoveFile 1;
       EvLog (RemovingFile 1); EvRemoveFile 2; EvLog (RemovingFile 2);
       EvRemoveFile 3; EvLog (RemovingFile 3)]
  ∧ Forall (λ e, is_median e = false)
      [EvCompare 0; EvCompare 1; EvCompare 2; EvCompare 3].
Proof.
  apply (median_completes_before_comparison ex_collab ex_inputs
           (ex_kw false false false) ex_world
           (do_detection ex_collab ex_inputs (ex_kw false false false) ex_world).1
           (do_detection ex_collab ex_inputs (ex_kw false false false) ex_world).2).
  - apply surjective_pairing.
  - vm_compute. reflexivity.
Defined.

Lemma empty_exposure_set_is_fatal_witness :
  (∃ e, (do_detection ex_collab [] (ex_kw true false false) ex_world).1 = Raise e)
  ∧ (∃ t, trace (do_detection ex_collab [] (ex_kw true false false) ex_world).2
          = trace ex_world ++ t
          ∧ Forall (λ e, is_median e = false ∧ is_image_model e = false) t)
  ∧ models (do_detection ex_collab [] (ex_kw true false false) ex_world).2
    = models ex_world
  ∧ metas (do_detection ex_collab [] (ex_kw true false false) ex_world).2
    = metas ex_world.
Proof.
  apply (empty_exposure_set_is_fatal ex_collab (ex_kw true false false) ex_world).
  - intros ms H. by inversion H.
  - apply surjective_pairing.
Defined.





(** C5, as stated, fails: when the median combination raises, the mosaics
    the resampler has put in files are still there when the run ends. *)
Lemma releases_on_every_exit_counterexample :
  ¬ releases_on_every_exit ex_collab_no_median ex_inputs
      (ex_kw true false false) ex_world.
Proof.
  intros H.
  apply (H eq_refl eq_refl
           (do_detection ex_collab_no_median ex_inputs (ex_kw true false false)
              ex_world).1
           (do_detection ex_collab_no_median ex_inputs (ex_kw true false false)
              ex_world).2
           (surjective_pairing _) ex_inputs [4; 5; 6; 7] 4).
  - vm_compute. apply list_elem_of_further, list_elem_of_here.
  - apply list_elem_of_here.
  - vm_compute. reflexivity.
Qed.

Lemma mosaics_released_after_median_witness :
  (4 ∉ files (do_detection_body ex_collab ex_inputs (ex_kw true false false)
                ex_world).2)
  ∧ ∃ pre post,
      trace (do_detection_body ex_collab ex_inputs (ex_kw true false false)
               ex_world).2
      = trace ex_world ++ pre ++ EvRemoveFile 4 :: post
      ∧ EvCreateMedianReturned ∈ pre
      ∧ Forall (λ e, is_compare e = false) pre.
Proof.
  apply (mosaics_released_after_median ex_collab ex_inputs
           (ex_kw true false false) ex_world [4; 5; 6; 7] 8).
  - reflexivity.
  - reflexivity.
  - vm_compute. reflexivity.
  - apply list_elem_of_here.
Defined.

(** C6, as stated, fails: with a disk that refuses the first mosaic, the
    run ends with [PersistenceError] instead of returning. *)
Lemma recovers_from_write_failure_counterexample :
  ¬ recovers_from_write_failure ex_collab_disk_full ex_inputs
      (ex_kw true true false) ex_world.
Proof.
  intros H.
  destruct (H (do_detection ex_collab_disk_full ex_inputs (ex_kw true true false)
                 ex_world).1
              (do_detection ex_collab_disk_full ex_inputs (ex_kw true true false)
                 ex_world).2
              (surjective_pairing _)) as [Hr _].
  - exists 4, (Some "exp1.fits_outlier_s2d.fits"). vm_compute.
    do 3 apply list_elem_of_further. apply list_elem_of_here.
  - vm_compute in Hr. discriminate.
Qed.

Lemma write_failure_ends_the_run_witness :
  (∃ e, (do_detection ex_collab_disk_full ex_inputs (ex_kw true true false)
           ex_world).1 = Raise e)
  ∧ Forall (λ e, is_compare e = false)
      (trace (do_detection ex_collab_disk_full ex_inputs (ex_kw true true false)
                ex_world).2)
  ∧ kept dq ex_world
      (do_detection ex_collab_disk_full ex_inputs (ex_kw true true false)
         ex_world).2.
Proof.
  apply (write_failure_ends_the_run ex_collab_disk_full ex_inputs
           (ex_kw true true false) ex_world _ _ _ 4
           (Some "exp1.fits_outlier_s2d.fits")).
  - apply surjective_pairing.
  - vm_compute. reflexivity.
  - vm_compute. do 3 apply list_elem_of_further. apply list_elem_of_here.
Defined.

Lemma exposure_failure_is_contained_witness :
  (detect_outliers ex_collab_bad_blot ex_inputs 4 (VPair 5 4) (VPair 1 0)
     (VFloat 0) (VBool true) ex_world_with_median).1 = Ok tt
  ∧ ∀ l m tm, l ∈ ex_inputs → models ex_world_with_median !! l = Some m →
      metas ex_world_with_median !! meta m = Some tm →
      match exposure_outcome ex_collab_bad_blot
              (mkImage [[Finite 10; Finite 5]] [[0%Z; 0%Z]]
                       [[Finite 0; Finite 0]] (mkMeta (Some "median.fits") []))
              (mkImage (data m) (dq m) (wht m) tm)
              (VPair 5 4) (VPair 1 0) (VFloat 0) (VBool true) with
      | Ok mask =>
          models (detect_outliers ex_collab_bad_blot ex_inputs 4 (VPair 5 4)
                    (VPair 1 0) (VFloat 0) (VBool true)
                    ex_world_with_median).2 !! l
          = Some (mkModel (data m)
                          (write_mask (outlier_flag ex_collab_bad_blot) (dq m) mask)
                          (wht m) (meta m))
      | Raise e =>
          models (detect_outliers ex_collab_bad_blot ex_inputs 4 (VPair 5 4)
                    (VPair 1 0) (VFloat 0) (VBool true)
                    ex_world_with_median).2 !! l = Some m
          ∧ EvReport l e
            ∈ trace (detect_outliers ex_collab_bad_blot ex_inputs 4 (VPair 5 4)
                       (VPair 1 0) (VFloat 0) (VBool true)
                       ex_world_with_median).2
      end.
Proof.
  apply (exposure_failure_is_contained ex_collab_bad_blot ex_inputs 4
           (VPair 5 4) (VPair 1 0) (VFloat 0) (VBool true)
           (mkModel [[Finite 10; Finite 5]] [[0%Z; 0%Z]] [[Finite 0; Finite 0]] 4)
           (mkMeta (Some "median.fits") []) ex_world_with_median).
  - unfold ex_inputs. repeat (apply NoDup_cons; split; [set_solver|]).
    apply NoDup_nil_2.
  - unfold ex_inputs. set_solver.
  - reflexivity.
  - reflexivity.
  - apply surjective_pairing.
  - vm_compute. reflexivity.
Defined.


(** * Further properties of the controller *)

#[global] Instance files_grow_preorder : PreOrder files_grow.
Proof.
  split; [intros w | intros a b d H1 H2]; unfold files_grow in *; set_solver.
Qed.

Lemma files_grow_quiet {A} (m : M A) :
  (∀ w, files (m w).2 = files w) → respects files_grow m.
Proof.
  intros Hm w r w' E. specialize (Hm w). rewrite E in Hm. simpl in Hm.
  unfold files_grow. by rewrite Hm.
Qed.

Lemma files_grow_hold l : respects files_grow (hold_file l).
Proof. intros w r w' E. inversion E; subst. unfold files_grow. simpl. set_solver. Qed.

Ltac files_grow_prim :=
  first
    [ apply files_grow_hold
    | apply files_grow_quiet; intros ?; reflexivity
    | progress autounfold with msetters ].

Lemma map_m_view_pure ls w : (map_m view ls w).2 = w.
Proof.
  induction ls as [|l ls IH]; [done|]. simpl. rewrite bind_run.
  pose proof (view_pure l w) as Hv.
  destruct (view l w) as [[img|e] w1]; simpl in Hv; subst w1; [|done].
  rewrite bind_run. destruct (map_m view ls w) as [[imgs|e] w1]; simpl in IH;
    by subst w1.
Qed.

Section ControllerCalls.

Variable c : Collaborators.

Lemma prepare_files_grow ins kw : respects files_grow (prepare c ins kw).
Proof. unfold prepare. respects_with files_grow_prim. Qed.

Lemma compute_median_files_grow kw drz med :
  respects files_grow (compute_median c kw drz med).
Proof. respects_with files_grow_prim. Qed.

Lemma body_of ins kw w r w' :
  do_detection c ins kw w = (r, w') →
  ∃ r', do_detection_body c ins kw w = (r', w')
        ∧ ((∃ e, r' = Raise e) → ∃ e, r = Raise e)
        ∧ (∀ e, r' = Raise e → r = Raise e).
Proof.
  unfold do_detection. rewrite bind_run.
  destruct (do_detection_body c ins kw w) as [[a|e] w1]; inversion 1; subst;
    eexists; (split; [reflexivity|]); split.
  - intros [e [=]].
  - intros e [=].
  - eauto.
  - by intros e' [= ->].
Qed.

(** X1: resampling and weight building exclude each other over a whole run.
    If [resample_data] is the value [True], [build_driz_weight] is never
    called; for any other value, a truthy one included, the resampler is
    never called. *)
Theorem one_stack_route_per_run ins kw w r w' t :
  do_detection c ins kw w = (r, w') →
  trace w' = trace w ++ t →
  Forall (λ e, if is_True (resample_data kw)
               then is_build_weight e = false
               else is_drizzle e = false) t.
Proof.
  intros H Ht. apply body_of in H as (r' & H & _).
  assert (respects
            (emits (λ e, if is_True (resample_data kw)
                         then is_build_weight e = false
                         else is_drizzle e = false))
            (do_detection_body c ins kw)) as Hall.
  { unfold do_detection_body, make_drizzled.
    destruct (is_True (resample_data kw)); respects_with emits_prim. }
  apply Hall in H as (t' & Et & F). rewrite Et in Ht.
  by apply app_inv_head in Ht as <-.
Qed.

(** X2: nothing is deleted unless both [save_intermediate_results] and
    [in_memory] are falsy.  If either is truthy, no run, however it ends,
    calls [_remove_file], and every file held before is still held. *)
Theorem no_removal_when_saved_or_in_memory ins kw w r w' t :
  truthy (save_intermediate_results kw) || truthy (in_memory kw) = true →
  do_detection c ins kw w = (r, w') →
  trace w' = trace w ++ t →
  Forall (λ e, is_remove e = false) t ∧ files w ⊆ files w'.
Proof.
  intros Hflags H Ht. apply body_of in H as (r' & H & _).
  assert (respects (emits (λ e, is_remove e = false))
            (do_detection_body c ins kw)) as Hev.
  { unfold do_detection_body, retain_or_release.
    destruct (truthy (save_intermediate_results kw)),
             (truthy (in_memory kw)); try discriminate;
      respects_with emits_prim. }
  assert (respects files_grow (do_detection_body c ins kw)) as Hfi.
  { unfold do_detection_body, retain_or_release.
    destruct (truthy (save_intermediate_results kw)),
             (truthy (in_memory kw)); try discriminate;
      respects_with files_grow_prim. }
  split; [|by eapply Hfi].
  apply Hev in H as (t' & Et & F). rewrite Et in Ht.
  by apply app_inv_head in Ht as <-.
Qed.


Lemma compute_median_fails kw drz med w r w' e :
  (∀ stack, create_median c stack (maskpt kw) = Raise e) →
  compute_median c kw drz med w = (r, w') →
  (∃ e', r = Raise e')
  ∧ trace w' = trace w ++ [EvCreateMedianCalled drz]
  ∧ models w' = models w ∧ metas w' = metas w ∧ files w' = files w.
Proof.
  intros Hcm. unfold compute_median. rewrite bind_run. cbn [emit].
  rewrite bind_run.
  pose proof (map_m_view_pure drz
                (mkWorld (models w) (metas w) (files w)
                         (trace w ++ [EvCreateMedianCalled drz]))) as Hp.
  destruct (map_m view drz _) as [[stack|e0] wa]; simpl in Hp; subst wa.
  - rewrite bind_run. unfold lift at 1. rewrite Hcm. inversion 1; subst. eauto 10.
  - inversion 1; subst. eauto 10.
Qed.

(** X4: a failure of the median combination is fatal.  If [create_median]
    raises, [do_detection] raises; the comparator has not been run on any
    exposure, no file has been removed, no median has been written, and
    every quality-flag array and held file is as it was. *)
Theorem median_failure_is_fatal ins kw w r w' t e :
  (∀ stack, create_median c stack (maskpt kw) = Raise e) →
  do_detection c ins kw w = (r, w') →
  trace w' = trace w ++ t →
  (∃ e', r = Raise e')
  ∧ Forall (λ ev, is_detect ev = false ∧ is_remove ev = false
                  ∧ ev ≠ EvCreateMedianReturned
                  ∧ ∀ p, ev ≠ EvLog (WritingMedian p)) t
  ∧ kept dq w w'
  ∧ files w ⊆ files w'.
Proof.
  intros Hcm H Ht. apply body_of in H as (r' & H & Hr & _).
  assert (respects
            (emits (λ ev, is_detect ev = false ∧ is_remove ev = false
                          ∧ ev ≠ EvCreateMedianReturned
                          ∧ ∀ p, ev ≠ EvLog (WritingMedian p)))
            (prepare c ins kw)) as Hprep.
  { unfold prepare.
    respects_with ltac:(first [ apply emits_emit; by repeat split
                              | emits_prim ]). }
  apply body_cases in H as [(e1 & Hp & ->) | (drz & med & w1 & Hp & Hf)].
  - split; [eauto|].
    pose proof (prepare_kept_dq _ _ _ _ _ _ Hp) as K.
    pose proof (prepare_files_grow _ _ _ _ _ Hp) as G.
    apply Hprep in Hp as (t1 & Et1 & F1). rewrite Et1 in Ht.
    by apply app_inv_head in Ht as <-.
  - pose proof (prepare_kept_dq _ _ _ _ _ _ Hp) as K.
    pose proof (prepare_files_grow _ _ _ _ _ Hp) as G.
    apply Hprep in Hp as (t1 & Et1 & F1).
    unfold finish in Hf.
    apply bind_inv in Hf as [([] & w2 & H2 & _) | (e2 & H2 & ->)].
    { by destruct (compute_median_fails _ _ _ _ _ _ _ Hcm H2) as ([e' [=]] & _). }
    pose proof (compute_median_kept_dq _ _ _ _ _ _ _ H2) as K2.
    destruct (compute_median_fails _ _ _ _ _ _ _ Hcm H2)
      as (_ & Et2 & _ & _ & Hfi).
    split; [eauto|]. split; [|split].
    + rewrite Et2, Et1, <- app_assoc in Ht. apply app_inv_head in Ht as <-.
      apply Forall_app. split; [done|]. by repeat constructor.
    + by etrans.
    + unfold files_grow in G. by rewrite Hfi.
Qed.

(** X5: a failure of the resampler is fatal and leaves nothing behind.  If
    [resample_data] is [True] and [do_drizzle] raises, [do_detection]
    raises with the store and the held files exactly as they were. *)
Theorem resample_failure_leaves_the_store ins kw w r w' e :
  is_True (resample_data kw) = true →
  (∀ imgs, do_drizzle c kw imgs = Raise e) →
  do_detection c ins kw w = (r, w') →
  (∃ e', r = Raise e')
  ∧ models w' = models w ∧ metas w' = metas w ∧ files w' = files w
  ∧ (trace w' = trace w ∨ trace w' = trace w ++ [EvConvertInputs]).
Proof.
  intros Hrs Hdz. unfold do_detection, do_detection_body, make_drizzled, resample.
  rewrite Hrs. rewrite !bind_run. unfold lift at 1.
  destruct (convert_inputs c kw) as [[]|e0].
  2:{ inversion 1; subst. eauto 10. }
  rewrite !bind_run. cbn [emit]. rewrite !bind_run.
  pose proof (map_m_view_pure ins
                (mkWorld (models w) (metas w) (files w)
                         (trace w ++ [EvConvertInputs]))) as Hp.
  destruct (map_m view ins _) as [[imgs|e0] wa]; simpl in Hp; subst wa.
  - rewrite !bind_run. unfold lift at 1. rewrite Hdz.
    inversion 1; subst. simpl. eauto 10.
  - inversion 1; subst. simpl. eauto 10.
Qed.

Lemma empty_stack_run ins kw w w0 :
  convert_inputs c kw = Ok tt →
  make_drizzled c kw ins
    (mkWorld (models w) (metas w) (files w) (trace w ++ [EvConvertInputs]))
  = (Ok [], w0) →
  do_detection c ins kw w = (Raise IndexError, w0).
Proof.
  intros Hc Hd. unfold do_detection, do_detection_body.
  rewrite !bind_run. unfold lift at 1. rewrite Hc.
  rewrite !bind_run. cbn [emit]. rewrite !bind_run, Hd. reflexivity.
Qed.

Lemma map_m_view_total ls w :
  (∀ l, l ∈ ls → ∃ m t, models w !! l = Some m ∧ metas w !! meta m = Some t) →
  ∃ imgs, map_m view ls w = (Ok imgs, w).
Proof.
  induction ls as [|l ls IH]; intros Hv; simpl.
  - by exists [].
  - destruct (Hv l) as (m & t & Hm & Ht); [left|].
    destruct IH as (imgs & Himgs); [intros x Hx; apply Hv; by right|].
    eexists. rewrite bind_run, (view_run l m t) by done.
    rewrite bind_run, Himgs. reflexivity.
Qed.

(** X6: an empty mosaic stack ends the run with [IndexError], raised by
    [drizzled_models[0]] at line 69.  That is so for an empty exposure set
    without resampling, and also when the resampler hands back no mosaic
    for exposures that are there; in both cases no median model has been
    created, [create_median] has not been called and the store is as it
    was. *)
Theorem empty_stack_raises_index_error ins kw w :
  convert_inputs c kw = Ok tt →
  (if is_True (resample_data kw)
   then (∀ imgs, do_drizzle c kw imgs = Ok [])
        ∧ (∀ l, l ∈ ins →
             ∃ m t, models w !! l = Some m ∧ metas w !! meta m = Some t)
   else ins = []) →
  do_detection c ins kw w
  = (Raise IndexError,
     mkWorld (models w) (metas w) (files w)
       (trace w ++ EvConvertInputs
                   :: (if is_True (resample_data kw)
                       then [EvDrizzle ins []] else []))).
Proof.
  intros Hc Hstack. apply empty_stack_run; [done|].
  unfold make_drizzled, resample. destruct (is_True (resample_data kw)).
  - destruct Hstack as [Hdz Hv].
    destruct (map_m_view_total ins
                (mkWorld (models w) (metas w) (files w)
                         (trace w ++ [EvConvertInputs]))) as (imgs & Himgs);
      [exact Hv|].
    rewrite !bind_run, Himgs. rewrite !bind_run. unfold lift at 1. rewrite Hdz.
    simpl. rewrite <- app_assoc.
    by destruct (truthy (save_intermediate_results kw)).
  - subst ins. reflexivity.
Qed.

(** *** The exposures as the stack-building phase sees and leaves them *)

Lemma map_m_view_valid ls w imgs w' :
  map_m view ls w = (Ok imgs, w') →
  ∀ l, l ∈ ls → ∃ m t, models w !! l = Some m ∧ metas w !! meta m = Some t.
Proof.
  revert imgs w'. induction ls as [|x ls IH]; intros imgs w' H l Hl; simpl in H.
  - by inversion Hl.
  - apply bind_ok in H as (img & w1 & H1 & H).
    apply view_ok in H1 as [-> (m & t & Hm & Ht & _)].
    apply bind_ok in H as (rest & w1 & H1 & _).
    apply elem_of_cons in Hl as [->|Hl]; [eauto|]. by eapply IH.
Qed.

Lemma weights_inputs_valid kw ins n :
  ∀ k w w',
    for_each (seq k n) (λ i,
      src ← index ins i;
      img ← view src;
      a ← lift (build_driz_weight c img (weight_type kw) (good_bits kw));
      emit (EvBuildWeight src);;
      dst ← index ins i;
      set_wht dst a) w = (Ok tt, w') →
    ∀ i l, k ≤ i < k + n → ins !! i = Some l →
      ∃ m t, models w !! l = Some m ∧ metas w !! meta m = Some t.
Proof.
  induction n as [|n IH]; intros k w w' H i l Hi Hl; [lia|].
  simpl in H. apply bind_ok in H as ([] & w1 & H1 & H).
  apply weight_turn_ok in H1 as (x & mx & tx & a & Hx & Hmx & Htx & _ & Hmo & Hme).
  destruct (decide (i = k)) as [->|Hne].
  - rewrite Hl in Hx. inversion Hx; subst x. eauto.
  - destruct (IH (S k) w1 w' H i l) as (m1 & t & Hm1 & Ht); [lia|done|].
    rewrite Hmo in Hm1. rewrite Hme in Ht.
    destruct (decide (l = x)) as [->|Hlx].
    + rewrite list_lookup_insert_eq in Hm1 by (by eapply lookup_lt_Some).
      inversion Hm1; subst m1. simpl in Ht. eauto.
    + rewrite list_lookup_insert_ne in Hm1 by done. eauto.
Qed.

(** Lines 46-66 succeed only on exposures that are there, and leave each
    of them with its data, its meta reference and its meta node. *)
Lemma make_drizzled_inputs kw ins w drz w0 :
  make_drizzled c kw ins w = (Ok drz, w0) →
  (∀ l, l ∈ ins → ∃ m t, models w !! l = Some m ∧ metas w !! meta m = Some t)
  ∧ (∀ l m t, models w !! l = Some m → metas w !! meta m = Some t →
       ∃ m0, models w0 !! l = Some m0 ∧ meta m0 = meta m ∧ data m0 = data m
             ∧ metas w0 !! meta m = Some t).
Proof.
  intros H. pose proof (make_drizzled_ok _ _ _ _ _ _ H) as [Fd Hbr].
  revert H. unfold make_drizzled.
  destruct (is_True (resample_data kw)); intros H.
  - destruct Hbr as ((news & Hmo & _) & _ & _ & Hold).
    apply bind_ok in H as (outs & w1 & H1 & _). unfold resample in H1.
    apply bind_ok in H1 as (imgs & w2 & H2 & _). split.
    + by eapply map_m_view_valid.
    + intros l m t Hm Ht. exists m. rewrite Hmo. repeat split.
      * by apply lookup_app_l_Some.
      * rewrite Hold; [done|]. by eapply lookup_lt_Some.
  - destruct Hbr as (_ & Hme & _ & Hto).
    apply bind_ok in H as ([] & w1 & H1 & _). split.
    + intros l Hl. apply list_elem_of_lookup in Hl as (i & Hi).
      eapply (weights_inputs_valid kw ins (length ins) 0 w w1 H1 i l);
        [|done]. apply lookup_lt_Some in Hi. lia.
    + intros l m t Hm Ht. destruct (Hto l m Hm) as (m0 & Hm0 & Hd & _ & Hmeta).
      exists m0. rewrite Hme. eauto.
Qed.

(** *** The median file *)

Ltac save_events_prim :=
  first
    [ apply emits_emit; intros ? ? ?; first [ discriminate | by simplify_eq ]
    | emits_prim ].

(** The only objects lines 46-66 write out are members of the stack. *)
Lemma make_drizzled_save_events kw ins w drz w0 :
  make_drizzled c kw ins w = (Ok drz, w0) →
  emits (λ e, ∀ l p, e = EvSave l p → l ∈ drz) w w0.
Proof.
  unfold make_drizzled. destruct (is_True (resample_data kw)); intros H.
  - apply bind_ok in H as (outs & w1 & H1 & H).
    apply resample_ok in H1 as (_ & Et1 & _).
    apply bind_ok in H as ([] & w2 & H2 & H). apply mret_ok in H as [<- <-].
    assert (emits (λ e, ∀ l p, e = EvSave l p → l ∈ drz) w1 w0)
      as (t2 & Et2 & F2).
    { destruct (truthy (save_intermediate_results kw)).
      - revert H2. generalize w1 (Ok tt : Result unit) w0.
        apply (respects_for_each (emits (λ e, ∀ l p, e = EvSave l p → l ∈ drz))).
        intros x Hx. respects_with save_events_prim.
      - apply mret_ok in H2 as [-> _]. reflexivity. }
    exists ([EvDrizzle ins drz] ++ t2). split; [by rewrite Et2, Et1, <- app_assoc|].
    constructor; [by intros ? ? [=]|done].
  - apply bind_ok in H as ([] & w1 & H1 & H). apply mret_ok in H as [<- <-].
    revert H1. generalize w (Ok tt : Result unit) w0.
    change (respects (emits (λ e, ∀ l p, e = EvSave l p → l ∈ drz))
              (for_each (seq 0 (length drz)) (λ i,
                 src ← index drz i;
                 img ← view src;
                 a ← lift (build_driz_weight c img (weight_type kw) (good_bits kw));
                 emit (EvBuildWeight src);;
                 dst ← index drz i;
                 set_wht dst a))).
    respects_with save_events_prim.
Qed.

(** Where the preparation leaves the median model: it is the newest object,
    above every member of the stack, and its meta node carries the path
    made from the file name the first input exposure came with. *)
Lemma prepare_median_name ins kw w drz med w1 :
  prepare c ins kw w = (Ok (drz, med), w1) →
  ∃ i0 im it path mm node,
    ins !! 0 = Some i0 ∧ models w !! i0 = Some im ∧ metas w !! meta im = Some it
    ∧ make_output_path kw (filename it) "median" = Ok path
    ∧ models w1 !! med = Some mm ∧ metas w1 !! meta mm = Some node
    ∧ filename node = Some path
    ∧ Forall (λ l, l < med) drz.
Proof.
  intros H. apply prepare_ok in H as (w0 & _ & Hd & Hi).
  pose proof (make_drizzled_ok _ _ _ _ _ _ Hd) as [Fd _].
  apply make_drizzled_inputs in Hd as [Hvalid Hkeep]. cbn [models metas] in *.
  apply init_median_ok in Hi
    as (d0 & m0 & i0 & path & t0 & _ & _ & Hi0 & -> & Ht0 & Hp & ->).
  destruct Hp as (im' & it' & Him' & Hit' & Hpath).
  destruct (Hvalid i0) as (im & it & Him & Hit);
    [by eapply list_elem_of_lookup_2|].
  destruct (Hkeep i0 im it Him Hit) as (ima & Hima & Hmeta & _ & Hita).
  rewrite (lookup_app_l_Some _ _ _ _ Hima) in Him'. inversion Him'; subst im'.
  rewrite Hmeta, (lookup_app_l_Some _ _ _ _ Hita) in Hit'.
  inversion Hit'; subst it'.
  eexists i0, im, it, path, _, _. cbn [models metas].
  repeat split; try done.
  - rewrite lookup_app_r, Nat.sub_diag by lia. reflexivity.
  - cbn [meta]. apply list_lookup_insert_eq. by eapply lookup_lt_Some.
  - done.
Qed.

(** Lines 80-83, when they succeed: the median is logged and written under
    the file name its meta node carries. *)
Lemma retain_saves_median kw drz med w w' :
  truthy (save_intermediate_results kw) = true →
  retain_or_release c kw drz med w = (Ok tt, w') →
  ∃ m node,
    models w !! med = Some m ∧ metas w !! meta m = Some node
    ∧ trace w' = trace w ++ [EvLog (WritingMedian (filename node));
                             EvSave med (filename node)].
Proof.
  unfold retain_or_release. intros -> H.
  apply bind_ok in H as (name & w1 & H1 & H).
  apply get_filename_ok in H1 as [-> (m & node & Hm & Hn & ->)].
  apply bind_ok in H as ([] & w1 & H1 & H). inversion H1; subst; clear H1.
  apply bind_ok in H as (name' & w1 & H1 & H).
  apply get_filename_ok in H1 as [-> (m' & node' & Hm' & Hn' & ->)].
  cbn [models metas] in *. rewrite Hm in Hm'. inversion Hm'; subst m'.
  rewrite Hn in Hn'. inversion Hn'; subst node'.
  unfold save_model in H.
  apply bind_ok in H as (img & w1 & H1 & H). apply view_ok in H1 as [-> _].
  destruct (save c img (filename node)).
  2:{ apply bind_ok in H as (? & ? & _ & H). discriminate. }
  inversion H; subst. cbn [trace]. exists m, node.
  by rewrite <- app_assoc.
Qed.

(** X7: the median image is written out exactly when
    [save_intermediate_results] is truthy, and then under the path
    [make_output_path] gives for the file name the first input exposure
    came with and the suffix [median], also when the stack was resampled
    and its mosaics renamed. *)
Theorem median_written_under_first_input_name ins kw w drz med w' t :
  do_detection_body c ins kw w = (Ok (drz, med), w') →
  trace w' = trace w ++ t →
  ∃ i0 im it path,
    ins !! 0 = Some i0 ∧ models w !! i0 = Some im
    ∧ metas w !! meta im = Some it
    ∧ make_output_path kw (filename it) "median" = Ok path
    ∧ (EvSave med (Some path) ∈ t
       ↔ truthy (save_intermediate_results kw) = true)
    ∧ (∀ p, EvSave med p ∈ t → p = Some path).
Proof.
  intros H Ht. apply body_ok in H as (w1 & w2 & w3 & Hp & H2 & H3 & H4).
  pose proof (prepare_median_name _ _ _ _ _ _ Hp)
    as (i0 & im & it & path & mm & node & Hi0 & Him & Hit & Hpath & Hmm & Hnode
        & Hname & Fdrz).
  exists i0, im, it, path. do 4 (split; [done|]).
  (* the median model and its node when the median has been combined *)
  pose proof (compute_median_touches _ _ _ _ _ _ _ H2) as (Hme2 & _ & Hto2).
  destruct (Hto2 med mm Hmm) as (mm2 & Hmm2 & Hod).
  unfold only_data_of in Hod. rewrite decide_True in Hod by done.
  destruct Hod as (_ & _ & Hmeta2).
  (* the events of the four phases *)
  pose proof Hp as Hp'. apply prepare_ok in Hp' as (w0 & _ & Hd & Hi).
  pose proof (make_drizzled_save_events _ _ _ _ _ Hd) as (ta & Eta & Fa).
  apply init_median_ok in Hi
    as (d0 & m0 & j0 & path' & t0 & _ & _ & _ & Hmed & _ & _ & Hw1).
  apply compute_median_returned in H2.
  pose proof (detect_outliers_emits c (λ e, ∀ l p, e ≠ EvSave l p)
                _ _ _ _ _ _ ltac:(done) ltac:(done) ltac:(done) _ _ _ H4)
    as (t4 & Et4 & F4).
  assert (∀ l p, EvSave l p ∈ ta → l ≠ med) as Hearly.
  { intros l p Hl. eapply Forall_forall in Fa; [|exact Hl].
    specialize (Fa l p eq_refl). eapply Forall_forall in Fdrz; [|exact Fa].
    simpl in Fdrz. lia. }
  assert (∀ l p, EvSave l p ∉ t4) as Hlate.
  { intros l p Hl. eapply Forall_forall in F4; [|exact Hl]. by destruct (F4 l p). }
  destruct (truthy (save_intermediate_results kw)) eqn:Hsv.
  - apply retain_saves_median in H3 as (m3 & node3 & Hm3 & Hn3 & Et3); [|done].
    rewrite Hmm2 in Hm3. inversion Hm3; subst m3.
    rewrite Hme2, Hmeta2, Hnode in Hn3. inversion Hn3; subst node3.
    rewrite Hname in Et3.
    assert (t = [EvConvertInputs] ++ ta
                ++ [EvImageModel med (shape (data m0));
                    EvCreateMedianCalled drz; EvCreateMedianReturned;
                    EvLog (WritingMedian (Some path)); EvSave med (Some path)]
                ++ t4) as ->.
    { rewrite Et4, Et3, H2, Hw1 in Ht. cbn [trace] in Ht. rewrite Eta in Ht.
      cbn [trace] in Ht. rewrite <- !app_assoc in Ht.
      apply app_inv_head in Ht. by rewrite <- Ht. }
    split.
    + split; [by intros _|]. intros _.
      rewrite !elem_of_app, !elem_of_cons. tauto.
    + intros p Hsave. rewrite !elem_of_app in Hsave.
      destruct Hsave as [Hs|[Hs|[Hs|Hs]]].
      * set_solver.
      * by destruct (Hearly _ _ Hs).
      * rewrite !elem_of_cons in Hs.
        destruct Hs as [Hs|[Hs|[Hs|[Hs|[Hs|Hs]]]]]; try discriminate.
        -- by inversion Hs.
        -- by inversion Hs.
      * by destruct (Hlate _ _ Hs).
  - assert (respects (emits (λ e, ∀ l p, e ≠ EvSave l p))
              (retain_or_release c kw drz med)) as Hret.
    { unfold retain_or_release. rewrite Hsv. respects_with emits_prim. }
    apply Hret in H3 as (t3 & Et3 & F3).
    apply (prepare_emits_no_save c (λ e, ∀ l p, e ≠ EvSave l p)) in Hp
      as (t1 & Et1 & F1); [|by rewrite Hsv, andb_false_r|auto].
    assert (∀ p, EvSave med p ∉ t) as Hnone.
    { intros p Hs.
      rewrite Et4, Et3, H2, Et1, <- !app_assoc in Ht.
      apply app_inv_head in Ht as <-.
      rewrite !elem_of_app in Hs. destruct Hs as [Hs|[Hs|[Hs|Hs]]].
      - eapply Forall_forall in F1; [|exact Hs]. by destruct (F1 med p).
      - set_solver.
      - eapply Forall_forall in F3; [|exact Hs]. by destruct (F3 med p).
      - by destruct (Hlate _ _ Hs). }
    split.
    + split; [intros Hs; by destruct (Hnone _ Hs)|done].
    + intros p Hs. by destruct (Hnone _ Hs).
Qed.

(** *** The sequence of calls *)

Lemma weights_trace kw ins n :
  ∀ k w w',
    for_each (seq k n) (λ i,
      src ← index ins i;
      img ← view src;
      a ← lift (build_driz_weight c img (weight_type kw) (good_bits kw));
      emit (EvBuildWeight src);;
      dst ← index ins i;
      set_wht dst a) w = (Ok tt, w') →
    trace w' = trace w ++ map EvBuildWeight (take n (drop k ins)).
Proof.
  induction n as [|n IH]; intros k w w' H; simpl in H.
  - apply mret_ok in H as [-> _]. by rewrite take_0, app_nil_r.
  - apply bind_ok in H as ([] & w1 & H1 & H). apply IH in H.
    apply bind_ok in H1 as (src & w2 & H2 & H1). apply index_ok in H2 as [-> Hs].
    apply bind_ok in H1 as (img & w2 & H2 & H1). apply view_ok in H2 as [-> _].
    apply bind_ok in H1 as (a & w2 & H2 & H1). apply lift_ok in H2 as [-> _].
    apply bind_ok in H1 as ([] & w2 & H2 & H1). inversion H2; subst; clear H2.
    apply bind_ok in H1 as (dst & w2 & H2 & H1). apply index_ok in H2 as [-> _].
    apply set_wht_ok in H1 as (m & _ & ->). cbn [trace] in H.
    rewrite (drop_S _ _ _ Hs). simpl. by rewrite H, <- app_assoc.
Qed.

Lemma save_mosaics_trace kw drz w w' :
  for_each drz (λ model,
    base ← get_filename model;
    path ← lift (make_output_path kw base "_outlier_s2d.fits");
    set_filename model path;;
    log_info WritingResampled;;
    name ← get_filename model;
    save_model c model name) w = (Ok tt, w') →
  ∃ paths,
    length paths = length drz
    ∧ trace w' = trace w ++ flat_map (λ lp, [EvLog WritingResampled;
                                             EvSave lp.1 (Some lp.2)])
                                     (zip drz paths).
Proof.
  revert w. induction drz as [|x drz IH]; intros w H; simpl in H.
  - apply mret_ok in H as [-> _]. exists []. by rewrite app_nil_r.
  - apply bind_ok in H as ([] & w1 & H1 & H).
    apply IH in H as (paths & Hlen & Et).
    apply bind_ok in H1 as (base & w2 & H2 & H1).
    apply get_filename_ok in H2 as [-> _].
    apply bind_ok in H1 as (path & w2 & H2 & H1). apply lift_ok in H2 as [-> _].
    apply bind_ok in H1 as ([] & w2 & H2 & H1).
    apply set_filename_ok in H2 as (m & t0 & Hm & Ht0 & ->).
    apply bind_ok in H1 as ([] & w2 & H2 & H1). inversion H2; subst; clear H2.
    apply bind_ok in H1 as (name & w2 & H2 & H1).
    apply get_filename_ok in H2 as [-> (m' & t' & Hm' & Ht' & ->)].
    cbn [models metas] in *. rewrite Hm in Hm'. inversion Hm'; subst m'.
    rewrite list_lookup_insert_eq in Ht' by (by eapply lookup_lt_Some).
    inversion Ht'; subst t'. cbn [filename] in *.
    unfold save_model in H1.
    apply bind_ok in H1 as (img & w2 & H2 & H1). apply view_ok in H2 as [-> _].
    destruct (save c img (Some path)).
    2:{ apply bind_ok in H1 as (? & ? & _ & H1). discriminate. }
    inversion H1; subst; clear H1. cbn [trace] in Et.
    exists (path :: paths). split; [simpl; by rewrite Hlen|].
    simpl. by rewrite Et, <- !app_assoc.
Qed.

Lemma remove_files_trace drz w w' :
  for_each drz (λ fn, _remove_file c fn;; log_info (RemovingFile fn)) w
    = (Ok tt, w') →
  trace w' = trace w ++ flat_map (λ fn, [EvRemoveFile fn; EvLog (RemovingFile fn)])
                                 drz.
Proof.
  revert w. induction drz as [|x drz IH]; intros w H; simpl in H.
  - apply mret_ok in H as [-> _]. by rewrite app_nil_r.
  - apply bind_ok in H as ([] & w1 & H1 & H). apply IH in H.
    unfold _remove_file in H1.
    apply bind_ok in H1 as ([] & w2 & H2 & H1).
    apply bind_ok in H2 as ([] & w3 & H3 & H2). apply lift_ok in H3 as [-> _].
    apply bind_ok in H2 as ([] & w3 & H3 & H2). inversion H3; subst; clear H3.
    inversion H2; subst; clear H2. inversion H1; subst; clear H1.
    cbn [trace] in H. simpl. by rewrite H, <- !app_assoc.
Qed.

Lemma make_drizzled_calls kw ins w drz w0 :
  make_drizzled c kw ins w = (Ok drz, w0) →
  ∃ paths, length paths = length drz
           ∧ trace w0 = trace w ++ stack_calls kw ins drz paths.
Proof.
  unfold make_drizzled, stack_calls.
  destruct (is_True (resample_data kw)); intros H.
  - apply bind_ok in H as (outs & w1 & H1 & H).
    apply resample_ok in H1 as (_ & Et1 & _).
    apply bind_ok in H as ([] & w2 & H2 & H). apply mret_ok in H as [<- <-].
    destruct (truthy (save_intermediate_results kw)).
    + apply save_mosaics_trace in H2 as (paths & Hlen & Et2).
      exists paths. split; [done|]. by rewrite Et2, Et1, <- app_assoc.
    + apply mret_ok in H2 as [-> _].
      exists (replicate (length drz) EmptyString).
      split; [by rewrite length_replicate|done].
  - apply bind_ok in H as ([] & w1 & H1 & H). apply mret_ok in H as [<- <-].
    apply weights_trace in H1. rewrite drop_0, firstn_all in H1.
    exists (replicate (length drz) EmptyString).
    split; [by rewrite length_replicate|done].
Qed.

Lemma retain_or_release_calls kw drz med w w' :
  retain_or_release c kw drz med w = (Ok tt, w') →
  ∃ name, trace w' = trace w ++ retention_calls kw drz med name.
Proof.
  intros H. unfold retention_calls.
  destruct (truthy (save_intermediate_results kw)) eqn:Hsv.
  - apply retain_saves_median in H as (m & node & _ & _ & Et); [|done]. eauto.
  - unfold retain_or_release in H. rewrite Hsv in H. exists None.
    destruct (truthy (in_memory kw)); simpl in *.
    + apply mret_ok in H as [-> _]. by rewrite app_nil_r.
    + by apply remove_files_trace.
Qed.

(** X8: the calls of a run that returns, in order: [_convert_inputs]; the
    calls that build the stack; [ImageModel]; [create_median], called and
    returned; the calls that write the median out or remove the mosaics'
    files; and only then the calls of [detect_outliers].  Nothing else is
    called, and nothing is called out of this order. *)
Theorem call_sequence_of_a_returning_run ins kw w drz med w' t :
  do_detection_body c ins kw w = (Ok (drz, med), w') →
  trace w' = trace w ++ t →
  ∃ paths shp name late,
    length paths = length drz
    ∧ t = EvConvertInputs
          :: stack_calls kw ins drz paths
          ++ [EvImageModel med shp; EvCreateMedianCalled drz;
              EvCreateMedianReturned]
          ++ retention_calls kw drz med name
          ++ late
    ∧ Forall (λ e, is_detect e = true) late.
Proof.
  intros H Ht. apply body_ok in H as (w1 & w2 & w3 & Hp & H2 & H3 & H4).
  apply prepare_ok in Hp as (w0 & _ & Hd & Hi).
  apply make_drizzled_calls in Hd as (paths & Hlen & Et0).
  apply init_median_ok in Hi
    as (d0 & m0 & i0 & path & t0 & _ & _ & _ & -> & _ & _ & ->).
  apply compute_median_returned in H2.
  apply retain_or_release_calls in H3 as (name & Et3).
  apply (detect_outliers_emits c (λ e, is_detect e = true)) in H4
    as (late & Et4 & F4); [|done..].
  exists paths, (shape (data m0)), name, late.
  split; [done|]. split; [|done].
  rewrite Et4, Et3, H2 in Ht. cbn [trace] in Ht. rewrite Et0 in Ht.
  cbn [trace] in Ht. rewrite <- !app_assoc in Ht.
  apply app_inv_head in Ht. by rewrite <- Ht.
Qed.

(** *** The files of a resampled run *)

Lemma map_m_alloc_mosaic_exact mos :
  ∀ w outs w',
    map_m alloc_mosaic mos w = (Ok outs, w') →
    outs = seq (length (models w)) (length mos)
    ∧ models w'
      = models w
        ++ imap (λ j mo, mkModel (im_data (mo_image mo)) (im_dq (mo_image mo))
                                 (im_wht (mo_image mo)) (length (metas w) + j))
                mos
    ∧ metas w' = metas w ++ ((λ mo, im_meta (mo_image mo)) <$> mos)
    ∧ trace w' = trace w.
Proof.
  induction mos as [|mo mos IH]; intros w outs w' H; simpl in H.
  - apply mret_ok in H as [-> ->]. simpl. by rewrite !app_nil_r.
  - apply bind_ok in H as (l & w1 & H1 & H).
    apply bind_ok in H as (ls & w2 & H2 & H). apply mret_ok in H as [-> ->].
    apply IH in H2 as (-> & Hm & Ht & Htr).
    unfold alloc_mosaic in H1.
    apply bind_ok in H1 as (node & wa & Ha & H1). inversion Ha; subst; clear Ha.
    apply bind_ok in H1 as (l' & wb & Hb & H1). inversion Hb; subst; clear Hb.
    apply bind_ok in H1 as ([] & wc & Hc & H1). apply mret_ok in H1 as [-> ->].
    assert (models wc = models w
                        ++ [mkModel (im_data (mo_image mo)) (im_dq (mo_image mo))
                                    (im_wht (mo_image mo)) (length (metas w))]
            ∧ metas wc = metas w ++ [im_meta (mo_image mo)]
            ∧ trace wc = trace w) as (Em & Et & Etr).
    { destruct (mo_on_disk mo); inversion Hc; subst; by simpl. }
    cbn [models] in *. rewrite Hm, Ht, Htr, Em, Et, Etr.
    rewrite !length_app. simpl. rewrite Nat.add_1_r, Nat.add_0_r.
    rewrite <- !app_assoc. simpl. repeat split.
    do 2 f_equal. apply imap_ext. intros j x _. simpl. f_equal. lia.
Qed.

Lemma save_mosaics_paths kw names :
  ∀ a b w w',
    (∀ j name, names !! j = Some name →
       ∃ m t, models w !! (a + j) = Some m ∧ meta m = b + j
              ∧ metas w !! (b + j) = Some t ∧ filename t = name) →
    for_each (seq a (length names)) (λ model,
      base ← get_filename model;
      path ← lift (make_output_path kw base "_outlier_s2d.fits");
      set_filename model path;;
      log_info WritingResampled;;
      name ← get_filename model;
      save_model c model name) w = (Ok tt, w') →
    ∃ paths,
      Forall2 (λ name path,
                 make_output_path kw name "_outlier_s2d.fits" = Ok path)
              names paths
      ∧ trace w' = trace w ++ flat_map (λ lp, [EvLog WritingResampled;
                                               EvSave lp.1 (Some lp.2)])
                                       (zip (seq a (length names)) paths).
Proof.
  induction names as [|nm names IH]; intros a b w w' Hst H; simpl in H.
  - apply mret_ok in H as [-> _]. exists []. split; [constructor|].
    by rewrite app_nil_r.
  - apply bind_ok in H as ([] & w1 & H1 & H).
    destruct (Hst 0 nm eq_refl) as (m0 & t0 & Hm0 & Hmeta0 & Ht0 & Hnm).
    rewrite Nat.add_0_r in Hm0, Hmeta0, Ht0.
    apply bind_ok in H1 as (base & w2 & H2 & H1).
    apply get_filename_ok in H2 as [-> (m & t & Hm & Ht & ->)].
    rewrite Hm0 in Hm. inversion Hm; subst m. rewrite Hmeta0, Ht0 in Ht.
    inversion Ht; subst t. clear Hm Ht.
    apply bind_ok in H1 as (path & w2 & H2 & H1). apply lift_ok in H2 as [-> Hp].
    apply bind_ok in H1 as ([] & w2 & H2 & H1).
    apply set_filename_ok in H2 as (m & t & Hm & Ht & ->).
    rewrite Hm0 in Hm. inversion Hm; subst m. clear Hm Ht.
    apply bind_ok in H1 as ([] & w2 & H2 & H1). inversion H2; subst; clear H2.
    apply bind_ok in H1 as (name & w2 & H2 & H1).
    apply get_filename_ok in H2 as [-> (m' & t' & Hm' & Ht' & ->)].
    cbn [models metas] in *. rewrite Hm0 in Hm'. inversion Hm'; subst m'.
    rewrite list_lookup_insert_eq in Ht' by (by eapply lookup_lt_Some).
    inversion Ht'; subst t'. cbn [filename] in *.
    unfold save_model in H1.
    apply bind_ok in H1 as (img & w2 & H2 & H1). apply view_ok in H2 as [-> _].
    destruct (save c img (Some path)).
    2:{ apply bind_ok in H1 as (? & ? & _ & H1). discriminate. }
    inversion H1; subst; clear H1.
    apply (IH (S a) (S (meta m0))) in H as (paths & F & Et).
    + exists (path :: paths). split; [by constructor|].
      cbn [trace] in Et. simpl. by rewrite Et, <- !app_assoc.
    + intros j name Hj.
      destruct (Hst (S j) name Hj) as (mj & tj & Hm & Hme & Ht & Hn).
      rewrite Nat.add_succ_r in Hm, Hme, Ht. cbn [models metas]. simpl.
      exists mj, tj. repeat split; [done..| |done].
      rewrite list_lookup_insert_ne by lia. done.
Qed.

Lemma make_drizzled_resampled_saved kw ins w drz w0 :
  is_True (resample_data kw) = true →
  truthy (save_intermediate_results kw) = true →
  make_drizzled c kw ins w = (Ok drz, w0) →
  ∃ imgs mos paths,
    map_m view ins w = (Ok imgs, w)
    ∧ do_drizzle c kw imgs = Ok mos
    ∧ length drz = length mos
    ∧ Forall2 (λ mo path,
                 make_output_path kw (filename (im_meta (mo_image mo)))
                                  "_outlier_s2d.fits" = Ok path)
              mos paths
    ∧ trace w0 = trace w ++ EvDrizzle ins drz
                            :: flat_map (λ lp, [EvLog WritingResampled;
                                                EvSave lp.1 (Some lp.2)])
                                        (zip drz paths).
Proof.
  unfold make_drizzled. intros -> -> H.
  apply bind_ok in H as (outs & w1 & H1 & H).
  apply bind_ok in H as ([] & w2 & H2 & H). apply mret_ok in H as [<- <-].
  unfold resample in H1.
  apply bind_ok in H1 as (imgs & wa & Ha & H1).
  pose proof (map_m_view_ok _ _ _ _ Ha) as [-> _].
  apply bind_ok in H1 as (mos & wb & Hb & H1). apply lift_ok in Hb as [-> Hdr].
  apply bind_ok in H1 as (outs' & wb & Hb & H1).
  apply map_m_alloc_mosaic_exact in Hb as (-> & Hm & Ht & Htr).
  apply bind_ok in H1 as ([] & wc & Hc & H1). inversion Hc; subst; clear Hc.
  apply mret_ok in H1 as [-> ->].
  replace (length mos)
    with (length ((λ mo, filename (im_meta (mo_image mo))) <$> mos)) in H2
    by apply length_fmap.
  apply (save_mosaics_paths _ _ _ (length (metas w))) in H2 as (paths & F & Et).
  - exists imgs, mos, paths. rewrite length_fmap in Et. cbn [trace] in Et.
    rewrite Htr in Et. repeat split; [done..| | |].
    + by rewrite length_seq.
    + by apply Forall2_fmap_l in F.
    + by rewrite Et, <- app_assoc.
  - intros j name Hj. rewrite list_lookup_fmap in Hj.
    destruct (mos !! j) as [mo|] eqn:Hmo; [|discriminate].
    inversion Hj; subst name. cbn [models metas]. rewrite Hm, Ht.
    eexists _, (im_meta (mo_image mo)). repeat split.
    + rewrite lookup_app_r by lia.
      replace (length (models w) + j - length (models w)) with j by lia.
      rewrite list_lookup_imap, Hmo. reflexivity.
    + done.
    + rewrite lookup_app_r by lia.
      replace (length (metas w) + j - length (metas w)) with j by lia.
      by rewrite list_lookup_fmap, Hmo.
Qed.

Lemma retain_saves_median_path ins kw w drz med w1 w2 w3 :
  truthy (save_intermediate_results kw) = true →
  prepare c ins kw w = (Ok (drz, med), w1) →
  compute_median c kw drz med w1 = (Ok tt, w2) →
  retain_or_release c kw drz med w2 = (Ok tt, w3) →
  ∃ i0 im it path,
    ins !! 0 = Some i0 ∧ models w !! i0 = Some im
    ∧ metas w !! meta im = Some it
    ∧ make_output_path kw (filename it) "median" = Ok path
    ∧ trace w3 = trace w2 ++ [EvLog (WritingMedian (Some path));
                              EvSave med (Some path)].
Proof.
  intros Hsv Hp H2 H3.
  pose proof (prepare_median_name _ _ _ _ _ _ Hp)
    as (i0 & im & it & path & mm & node & Hi0 & Him & Hit & Hpath & Hmm & Hnode
        & Hname & _).
  exists i0, im, it, path. do 4 (split; [done|]).
  pose proof (compute_median_touches _ _ _ _ _ _ _ H2) as (Hme2 & _ & Hto2).
  destruct (Hto2 med mm Hmm) as (mm2 & Hmm2 & Hod).
  unfold only_data_of in Hod. rewrite decide_True in Hod by done.
  destruct Hod as (_ & _ & Hmeta2).
  apply retain_saves_median in H3 as (m3 & node3 & Hm3 & Hn3 & Et3); [|done].
  rewrite Hmm2 in Hm3. inversion Hm3; subst m3.
  rewrite Hme2, Hmeta2, Hnode in Hn3. inversion Hn3; subst node3.
  by rewrite Hname in Et3.
Qed.

Lemma saves_of_app t1 t2 : saves_of (t1 ++ t2) = saves_of t1 ++ saves_of t2.
Proof. apply omap_app. Qed.

Lemma saves_of_mosaics drz :
  ∀ paths,
    saves_of (flat_map (λ lp : loc * string,
                          [EvLog WritingResampled; EvSave lp.1 (Some lp.2)])
                       (zip drz paths))
    = zip_with (λ l path, (l, Some path)) drz paths.
Proof.
  induction drz as [|l drz IH]; intros [|p paths]; simpl; try done.
  unfold saves_of in *. simpl. by rewrite IH.
Qed.

Lemma saves_of_detect t :
  Forall (λ e, is_detect e = true) t → saves_of t = [].
Proof.
  induction 1 as [|e t He _ IH]; [done|].
  unfold saves_of in *. destruct e; simpl in *; try discriminate; exact IH.
Qed.

(** X9: the files written by a run that resamples, saves intermediate
    results and returns are, in this order, every mosaic of the stack under
    the path [make_output_path] gives for the file name the resampler gave
    it and the suffix [_outlier_s2d.fits], and then the median image under
    the first input exposure's file name with the suffix [median].  Nothing
    else is written. *)
Theorem files_written_by_a_resampled_run ins kw w drz med w' t :
  is_True (resample_data kw) = true →
  truthy (save_intermediate_results kw) = true →
  do_detection_body c ins kw w = (Ok (drz, med), w') →
  trace w' = trace w ++ t →
  ∃ imgs mos paths i0 im it median_path,
    map_m view ins w = (Ok imgs, w)
    ∧ do_drizzle c kw imgs = Ok mos
    ∧ length drz = length mos
    ∧ Forall2 (λ mo path,
                 make_output_path kw (filename (im_meta (mo_image mo)))
                                  "_outlier_s2d.fits" = Ok path)
              mos paths
    ∧ ins !! 0 = Some i0 ∧ models w !! i0 = Some im
    ∧ metas w !! meta im = Some it
    ∧ make_output_path kw (filename it) "median" = Ok median_path
    ∧ saves_of t = zip_with (λ l path, (l, Some path)) drz paths
                   ++ [(med, Some median_path)].
Proof.
  intros Hrs Hsv H Ht. apply body_ok in H as (w1 & w2 & w3 & Hp & H2 & H3 & H4).
  destruct (retain_saves_median_path _ _ _ _ _ _ _ _ Hsv Hp H2 H3)
    as (i0 & im & it & mpath & Hi0 & Him & Hit & Hmp & Et3).
  apply prepare_ok in Hp as (w0 & _ & Hd & Hi).
  apply make_drizzled_resampled_saved in Hd
    as (imgs & mos & paths & Hv & Hdr & Hlen & F & Et0); [|done..].
  apply init_median_ok in Hi
    as (d0 & m0 & j0 & path' & t0 & _ & _ & _ & -> & _ & _ & ->).
  apply compute_median_returned in H2.
  apply (detect_outliers_emits c (λ e, is_detect e = true)) in H4
    as (late & Et4 & F4); [|done..].
  exists imgs, mos, paths, i0, im, it, mpath.
  split. { eapply map_m_view_store in Hv; [|reflexivity..].
           cbn [models metas] in Hv.
           pose proof (map_m_view_pure ins w) as Hpure.
           destruct (map_m view ins w) as [r wv] eqn:E. simpl in Hpure. subst wv.
           eapply (map_m_view_store _ _ _ _ w) in Hv; [|done..].
           by rewrite E in Hv. }
  do 7 (split; [done|]).
  rewrite Et4, Et3, H2 in Ht. cbn [trace] in Ht. rewrite Et0 in Ht.
  cbn [trace] in Ht. rewrite <- !app_assoc in Ht.
  apply app_inv_head in Ht. rewrite <- Ht.
  change (EvConvertInputs :: ?x) with ([EvConvertInputs] ++ x).
  rewrite !saves_of_app. simpl.
  by rewrite saves_of_mosaics, (saves_of_detect late).
Qed.

(** *** A failure while the weight maps are built *)

(** One turn of the loop of lines 62-66 on an exposure that is there. *)
Lemma weight_turn_run kw ins i l m t w :
  ins !! i = Some l → models w !! l = Some m → metas w !! meta m = Some t →
  (src ← index ins i;
   img ← view src;
   a ← lift (build_driz_weight c img (weight_type kw) (good_bits kw));
   emit (EvBuildWeight src);;
   dst ← index ins i;
   set_wht dst a) w
  = match build_driz_weight c (mkImage (data m) (dq m) (wht m) t)
            (weight_type kw) (good_bits kw) with
    | Ok a => (Ok tt,
               mkWorld (<[l := mkModel (data m) (dq m) a (meta m)]> (models w))
                       (metas w) (files w) (trace w ++ [EvBuildWeight l]))
    | Raise e => (Raise e, w)
    end.
Proof.
  intros Hl Hm Ht. unfold index. rewrite Hl.
  rewrite bind_run. cbn [mret M_ret].
  rewrite bind_run, (view_run l m t) by done.
  rewrite bind_run. unfold lift at 1.
  destruct (build_driz_weight c _ _ _) as [a|e]; [|done].
  rewrite bind_run. cbn [emit]. rewrite bind_run. cbn [mret M_ret].
  unfold set_wht, get_model. rewrite bind_run. cbn [models]. by rewrite Hm.
Qed.

Lemma weights_stop kw ins n :
  NoDup ins →
  ∀ k w j l m t e,
    k ≤ j < k + n →
    ins !! j = Some l → models w !! l = Some m → metas w !! meta m = Some t →
    build_driz_weight c (mkImage (data m) (dq m) (wht m) t)
      (weight_type kw) (good_bits kw) = Raise e →
    (∀ i li, k ≤ i < j → ins !! i = Some li →
       ∃ mi ti ai,
         models w !! li = Some mi ∧ metas w !! meta mi = Some ti
         ∧ build_driz_weight c (mkImage (data mi) (dq mi) (wht mi) ti)
             (weight_type kw) (good_bits kw) = Ok ai) →
    ∃ w',
      for_each (seq k n) (λ i,
        src ← index ins i;
        img ← view src;
        a ← lift (build_driz_weight c img (weight_type kw) (good_bits kw));
        emit (EvBuildWeight src);;
        dst ← index ins i;
        set_wht dst a) w = (Raise e, w')
      ∧ metas w' = metas w
      ∧ files w' = files w
      ∧ trace w' = trace w ++ (EvBuildWeight <$> take (j - k) (drop k ins))
      ∧ (∀ i li mi ti, k ≤ i < j → ins !! i = Some li →
           models w !! li = Some mi → metas w !! meta mi = Some ti →
           ∃ a, build_driz_weight c (mkImage (data mi) (dq mi) (wht mi) ti)
                  (weight_type kw) (good_bits kw) = Ok a
                ∧ models w' !! li = Some (mkModel (data mi) (dq mi) a (meta mi)))
      ∧ (∀ x, (∀ i, k ≤ i < j → ins !! i ≠ Some x) →
           models w' !! x = models w !! x).
Proof.
  intros Hnd. induction n as [|n IH]; intros k w j l m t e Hj Hl Hm Ht He Hpre;
    [lia|].
  destruct (decide (j = k)) as [->|Hne].
  - exists w. simpl. rewrite bind_run, (weight_turn_run kw ins k l m t) by done.
    rewrite He. replace (k - k) with 0 by lia. rewrite take_0, app_nil_r.
    repeat split; try done. intros; lia.
  - assert (is_Some (ins !! k)) as [lk Hlk].
    { apply lookup_lt_is_Some. apply lookup_lt_Some in Hl. lia. }
    destruct (Hpre k lk) as (mk & tk & ak & Hmk & Htk & Hak); [lia|done|].
    assert (lk ≠ l) as Hkl.
    { intros ->. by pose proof (NoDup_lookup _ _ _ _ Hnd Hlk Hl). }
    set (w1 := mkWorld (<[lk := mkModel (data mk) (dq mk) ak (meta mk)]> (models w))
                       (metas w) (files w) (trace w ++ [EvBuildWeight lk])).
    destruct (IH (S k) w1 j l m t e) as (w' & Hrun & Hme & Hfi & Htr & Hdone & Hrest).
    + lia.
    + done.
    + simpl. by rewrite list_lookup_insert_ne.
    + done.
    + done.
    + intros i li Hi Hli. destruct (Hpre i li) as (mi & ti & ai & H1 & H2 & H3);
        [lia|done|].
      exists mi, ti, ai. repeat split; [|done..]. simpl.
      rewrite list_lookup_insert_ne; [done|]. intros ->.
      pose proof (NoDup_lookup _ _ _ _ Hnd Hlk Hli). lia.
    + exists w'. simpl. rewrite bind_run, (weight_turn_run kw ins k lk mk tk) by done.
      rewrite Hak. fold w1. rewrite Hrun. repeat split; [done..| | |].
      * rewrite Htr. simpl. rewrite <- app_assoc. f_equal.
        replace (j - k) with (S (j - S k)) by lia.
        by rewrite (drop_S _ _ _ Hlk).
      * intros i li mi ti Hi Hli Hmi Hti. destruct (decide (i = k)) as [->|Hik].
        -- rewrite Hlk in Hli. inversion Hli; subst li.
           rewrite Hmk in Hmi. inversion Hmi; subst mi.
           rewrite Htk in Hti. inversion Hti; subst ti.
           exists ak. split; [done|]. rewrite Hrest.
           ++ simpl. apply list_lookup_insert_eq. by eapply lookup_lt_Some.
           ++ intros i Hi' Hx. pose proof (NoDup_lookup _ _ _ _ Hnd Hlk Hx). lia.
        -- apply (Hdone i li mi ti); [lia|done| |done]. simpl.
           rewrite list_lookup_insert_ne; [done|]. intros ->.
           pose proof (NoDup_lookup _ _ _ _ Hnd Hlk Hli). lia.
      * intros x Hx. rewrite Hrest by (intros i Hi; apply Hx; lia). simpl.
        apply list_lookup_insert_ne. intros ->. by apply (Hx k); [lia|].
Qed.

(** X10: a failure of [build_driz_weight] is fatal and is not undone.  When
    the exposures are distinct objects and the call raises for the one at
    position [j] after getting through for those before it, [do_detection]
    raises the same exception before any median model exists; the
    exposures before position [j] have been given their new weight maps
    and keep them, all others and every meta node are as they were. *)
Theorem weight_failure_is_not_rolled_back ins kw w r w' j l m t e :
  is_True (resample_data kw) = false →
  convert_inputs c kw = Ok tt →
  NoDup ins →
  ins !! j = Some l → models w !! l = Some m → metas w !! meta m = Some t →
  build_driz_weight c (mkImage (data m) (dq m) (wht m) t)
    (weight_type kw) (good_bits kw) = Raise e →
  (∀ i li, i < j → ins !! i = Some li →
     ∃ mi ti ai,
       models w !! li = Some mi ∧ metas w !! meta mi = Some ti
       ∧ build_driz_weight c (mkImage (data mi) (dq mi) (wht mi) ti)
           (weight_type kw) (good_bits kw) = Ok ai) →
  do_detection c ins kw w = (r, w') →
  r = Raise e
  ∧ trace w' = trace w ++ EvConvertInputs :: (EvBuildWeight <$> take j ins)
  ∧ metas w' = metas w
  ∧ files w' = files w
  ∧ (∀ i li mi ti, i < j → ins !! i = Some li →
       models w !! li = Some mi → metas w !! meta mi = Some ti →
       ∃ a, build_driz_weight c (mkImage (data mi) (dq mi) (wht mi) ti)
              (weight_type kw) (good_bits kw) = Ok a
            ∧ models w' !! li = Some (mkModel (data mi) (dq mi) a (meta mi)))
  ∧ (∀ i li, j ≤ i → ins !! i = Some li → models w' !! li = models w !! li).
Proof.
  intros Hrs Hc Hnd Hl Hm Ht He Hpre H.
  destruct (weights_stop kw ins (length ins) Hnd 0
              (mkWorld (models w) (metas w) (files w)
                       (trace w ++ [EvConvertInputs])) j l m t e)
    as (w1 & Hrun & Hme & Hfi & Htr & Hdone & Hrest); try done.
  { apply lookup_lt_Some in Hl. lia. }
  { intros i li Hi. apply Hpre. lia. }
  unfold do_detection, do_detection_body, make_drizzled in H.
  rewrite Hrs in H. rewrite !bind_run in H. unfold lift at 1 in H.
  rewrite Hc in H. rewrite !bind_run in H. cbn [emit] in H.
  rewrite !bind_run, Hrun in H. inversion H; subst r w'; clear H.
  cbn [models metas files trace] in *.
  rewrite Nat.sub_0_r, drop_0 in Htr. repeat split; try done.
  - by rewrite Htr, <- app_assoc.
  - intros i li mi ti Hi. apply Hdone. lia.
  - intros i li Hi Hli. apply Hrest. intros i' Hi' Hx.
    pose proof (NoDup_lookup _ _ _ _ Hnd Hli Hx). lia.
Qed.

End ControllerCalls.

(** ** The further properties on the worked exposure set *)

Lemma one_stack_route_per_run_witness :
  Forall (λ e, if is_True (resample_data (ex_kw true true false))
               then is_build_weight e = false
               else is_drizzle e = false)
    (trace (do_detection ex_collab ex_inputs (ex_kw true true false)
              ex_world).2).
Proof.
  apply (one_stack_route_per_run ex_collab ex_inputs (ex_kw true true false)
           ex_world
           (do_detection ex_collab ex_inputs (ex_kw true true false) ex_world).1
           (do_detection ex_collab ex_inputs (ex_kw true true false) ex_world).2).
  - apply surjective_pairing.
  - vm_compute. reflexivity.
Defined.

Lemma no_removal_when_saved_or_in_memory_witness :
  Forall (λ e, is_remove e = false)
    (trace (do_detection ex_collab ex_inputs (ex_kw true false true)
              ex_world).2)
  ∧ files ex_world
    ⊆ files (do_detection ex_collab ex_inputs (ex_kw true false true)
               ex_world).2.
Proof.
  apply (no_removal_when_saved_or_in_memory ex_collab ex_inputs
           (ex_kw true false true) ex_world
           (do_detection ex_collab ex_inputs (ex_kw true false true) ex_world).1
           (do_detection ex_collab ex_inputs (ex_kw true false true) ex_world).2).
  - reflexivity.
  - apply surjective_pairing.
  - vm_compute. reflexivity.
Defined.


Lemma median_failure_is_fatal_witness :
  (∃ e', (do_detection ex_collab_no_median ex_inputs (ex_kw true false false)
            ex_world).1 = Raise e')
  ∧ Forall (λ ev, is_detect ev = false ∧ is_remove ev = false
                  ∧ ev ≠ EvCreateMedianReturned
                  ∧ ∀ p, ev ≠ EvLog (WritingMedian p))
      (trace (do_detection ex_collab_no_median ex_inputs
                (ex_kw true false false) ex_world).2)
  ∧ kept dq ex_world
      (do_detection ex_collab_no_median ex_inputs (ex_kw true false false)
         ex_world).2
  ∧ files ex_world
    ⊆ files (do_detection ex_collab_no_median ex_inputs
               (ex_kw true false false) ex_world).2.
Proof.
  apply (median_failure_is_fatal ex_collab_no_median ex_inputs
           (ex_kw true false false) ex_world
           (do_detection ex_collab_no_median ex_inputs (ex_kw true false false)
              ex_world).1
           (do_detection ex_collab_no_median ex_inputs (ex_kw true false false)
              ex_world).2 _ CombineError).
  - intros stack. reflexivity.
  - apply surjective_pairing.
  - vm_compute. reflexivity.
Defined.

Lemma resample_failure_leaves_the_store_witness :
  (∃ e', (do_detection ex_collab_no_resample ex_inputs (ex_kw true true false)
            ex_world).1 = Raise e')
  ∧ models (do_detection ex_collab_no_resample ex_inputs
              (ex_kw true true false) ex_world).2 = models ex_world
  ∧ metas (do_detection ex_collab_no_resample ex_inputs
             (ex_kw true true false) ex_world).2 = metas ex_world
  ∧ files (do_detection ex_collab_no_resample ex_inputs
             (ex_kw true true false) ex_world).2 = files ex_world
  ∧ (trace (do_detection ex_collab_no_resample ex_inputs
              (ex_kw true true false) ex_world).2 = trace ex_world
     ∨ trace (do_detection ex_collab_no_resample ex_inputs
                (ex_kw true true false) ex_world).2
       = trace ex_world ++ [EvConvertInputs]).
Proof.
  apply (resample_failure_leaves_the_store ex_collab_no_resample ex_inputs
           (ex_kw true true false) ex_world
           (do_detection ex_collab_no_resample ex_inputs (ex_kw true true false)
              ex_world).1
           (do_detection ex_collab_no_resample ex_inputs (ex_kw true true false)
              ex_world).2 ResampleError).
  - reflexivity.
  - intros imgs. reflexivity.
  - apply surjective_pairing.
Defined.

Lemma empty_stack_raises_index_error_witness :
  do_detection ex_collab_empty_resample ex_inputs (ex_kw true false false)
    ex_world
  = (Raise IndexError,
     mkWorld (models ex_world) (metas ex_world) (files ex_world)
       (trace ex_world
        ++ EvConvertInputs
           :: (if is_True (resample_data (ex_kw true false false))
               then [EvDrizzle ex_inputs []] else []))).
Proof.
  apply (empty_stack_raises_index_error ex_collab_empty_resample ex_inputs
           (ex_kw true false false) ex_world).
  - reflexivity.
  - split.
    + intros imgs. reflexivity.
    + intros l Hl.
      repeat (apply elem_of_cons in Hl as [->|Hl]);
        [by eexists _, _ .. | by apply elem_of_nil in Hl].
Defined.

Lemma median_written_under_first_input_name_witness :
  ∃ i0 im it path,
    ex_inputs !! 0 = Some i0 ∧ models ex_world !! i0 = Some im
    ∧ metas ex_world !! meta im = Some it
    ∧ make_output_path (ex_kw true true false) (filename it) "median" = Ok path
    ∧ (EvSave 8 (Some path)
         ∈ trace (do_detection_body ex_collab ex_inputs (ex_kw true true false)
                    ex_world).2
       ↔ truthy (save_intermediate_results (ex_kw true true false)) = true)
    ∧ (∀ p, EvSave 8 p
              ∈ trace (do_detection_body ex_collab ex_inputs
                         (ex_kw true true false) ex_world).2 →
            p = Some path).
Proof.
  apply (median_written_under_first_input_name ex_collab ex_inputs
           (ex_kw true true false) ex_world [4; 5; 6; 7] 8
           (do_detection_body ex_collab ex_inputs (ex_kw true true false)
              ex_world).2).
  - vm_compute. reflexivity.
  - vm_compute. reflexivity.
Defined.

Lemma call_sequence_of_a_returning_run_witness :
  ∃ paths shp name late,
    length paths = length [4; 5; 6; 7]
    ∧ trace (do_detection_body ex_collab ex_inputs (ex_kw true true false)
               ex_world).2
      = EvConvertInputs
        :: stack_calls (ex_kw true true false) ex_inputs [4; 5; 6; 7] paths
        ++ [EvImageModel 8 shp; EvCreateMedianCalled [4; 5; 6; 7];
            EvCreateMedianReturned]
        ++ retention_calls (ex_kw true true false) [4; 5; 6; 7] 8 name
        ++ late
    ∧ Forall (λ e, is_detect e = true) late.
Proof.
  apply (call_sequence_of_a_returning_run ex_collab ex_inputs
           (ex_kw true true false) ex_world [4; 5; 6; 7] 8
           (do_detection_body ex_collab ex_inputs (ex_kw true true false)
              ex_world).2).
  - vm_compute. reflexivity.
  - vm_compute. reflexivity.
Defined.

Lemma files_written_by_a_resampled_run_witness :
  ∃ imgs mos paths i0 im it median_path,
    map_m view ex_inputs ex_world = (Ok imgs, ex_world)
    ∧ do_drizzle ex_collab (ex_kw true true false) imgs = Ok mos
    ∧ length [4; 5; 6; 7] = length mos
    ∧ Forall2 (λ mo path,
                 make_output_path (ex_kw true true false)
                   (filename (im_meta (mo_image mo))) "_outlier_s2d.fits"
                 = Ok path)
              mos paths
    ∧ ex_inputs !! 0 = Some i0 ∧ models ex_world !! i0 = Some im
    ∧ metas ex_world !! meta im = Some it
    ∧ make_output_path (ex_kw true true false) (filename it) "median"
      = Ok median_path
    ∧ saves_of (trace (do_detection_body ex_collab ex_inputs
                         (ex_kw true true false) ex_world).2)
      = zip_with (λ l path, (l, Some path)) [4; 5; 6; 7] paths
        ++ [(8, Some median_path)].
Proof.
  apply (files_written_by_a_resampled_run ex_collab ex_inputs
           (ex_kw true true false) ex_world [4; 5; 6; 7] 8
           (do_detection_body ex_collab ex_inputs (ex_kw true true false)
              ex_world).2).
  - reflexivity.
  - reflexivity.
  - vm_compute. reflexivity.
  - vm_compute. reflexivity.
Defined.

Lemma weight_failure_is_not_rolled_back_witness :
  (do_detection ex_collab_bad_weight ex_inputs (ex_kw false false false)
     ex_world).1 = Raise WeightError
  ∧ trace (do_detection ex_collab_bad_weight ex_inputs (ex_kw false false false)
             ex_world).2
    = trace ex_world ++ EvConvertInputs :: (EvBuildWeight <$> take 2 ex_inputs)
  ∧ metas (do_detection ex_collab_bad_weight ex_inputs (ex_kw false false false)
             ex_world).2 = metas ex_world
  ∧ files (do_detection ex_collab_bad_weight ex_inputs (ex_kw false false false)
             ex_world).2 = files ex_world
  ∧ (∀ i li mi ti, i < 2 → ex_inputs !! i = Some li →
       models ex_world !! li = Some mi → metas ex_world !! meta mi = Some ti →
       ∃ a, build_driz_weight ex_collab_bad_weight
              (mkImage (data mi) (dq mi) (wht mi) ti)
              (weight_type (ex_kw false false false))
              (good_bits (ex_kw false false false)) = Ok a
            ∧ models (do_detection ex_collab_bad_weight ex_inputs
                        (ex_kw false false false) ex_world).2 !! li
              = Some (mkModel (data mi) (dq mi) a (meta mi)))
  ∧ (∀ i li, 2 ≤ i → ex_inputs !! i = Some li →
       models (do_detection ex_collab_bad_weight ex_inputs
                 (ex_kw false false false) ex_world).2 !! li
       = models ex_world !! li).
Proof.
  apply (weight_failure_is_not_rolled_back ex_collab_bad_weight ex_inputs
           (ex_kw false false false) ex_world
           (do_detection ex_collab_bad_weight ex_inputs (ex_kw false false false)
              ex_world).1
           (do_detection ex_collab_bad_weight ex_inputs (ex_kw false false false)
              ex_world).2
           2 2 (ex_exposure 100 0 2) (mkMeta (Some "exp3.fits") []) WeightError).
  - reflexivity.
  - reflexivity.
  - apply (bool_decide_unpack _). vm_compute. exact I.
  - reflexivity.
  - reflexivity.
  - reflexivity.
  - reflexivity.
  - intros i li Hi Hli. destruct i as [|[|i]]; [| |lia].
    + inversion Hli; subst li. by eexists _, _, _.
    + inversion Hli; subst li. by eexists _, _, _.
  - apply surjective_pairing.
Defined.
